(** * Incremental search index of astrophoenix-host (src/src/App.tsx, src/src/search.ts)

    A shallow embedding of the search page: the string helpers, the
    document table and the inverted index, the concurrent indexing run of
    [fetchManifestAndIndex] as a step relation, and [doSearch].

    Strings are Stdlib [string]s of bytes; JavaScript's [toLowerCase],
    [trim] and the [[^a-z0-9]] character class are modelled on the ASCII
    range, which is the range the tokenizer keeps. The fuzzy matcher
    (the fuse.js library), the locale collation of [localeCompare] and the
    language-model calls are external to the repository and are section
    variables. *)

From Stdlib Require Import String Ascii QArith Qround ZArith Lia Sorted.
From stdpp Require Import base list gmap strings.
Import ListNotations.

Open Scope string_scope.

(* ------------------------------------------------------------------ *)
(** ** String helpers *)

Definition ascii_code (c : ascii) : nat := nat_of_ascii c.

(** One character of [String.prototype.toLowerCase] on the ASCII range;
    the Unicode case mappings beyond it are not modelled. *)
Definition lower_char (c : ascii) : ascii :=
  let n := ascii_code c in
  if (65 <=? n)%nat && (n <=? 90)%nat then ascii_of_nat (n + 32) else c.

Fixpoint toLowerCase (s : string) : string :=
  match s with
  | EmptyString => EmptyString
  | String c s' => String (lower_char c) (toLowerCase s')
  end.

(** The characters of the class [[a-z0-9]]. *)
Definition is_word_char (c : ascii) : bool :=
  let n := ascii_code c in
  ((97 <=? n)%nat && (n <=? 122)%nat) || ((48 <=? n)%nat && (n <=? 57)%nat).

(** [s.split(/[^a-z0-9]+/g)] up to the empty pieces, which the caller
    filters out: splitting at every single separator character gives the
    same non-empty pieces as splitting at maximal runs. *)
Fixpoint split_words (s : string) : list string :=
  match s with
  | EmptyString => [""]
  | String c s' =>
      let r := split_words s' in
      if is_word_char c then
        match r with
        | w :: ws => String c w :: ws
        | [] => [String c ""]
        end
      else "" :: r
  end.

(** [tokenize] of App.tsx: lowercase, split on non-word runs, drop empties. *)
Definition tokenize (text : string) : list string :=
  filter (fun w => negb (String.eqb w "")) (split_words (toLowerCase text)).

(** [indexOf]: the first position at which [p] occurs in [s]. *)
Fixpoint indexOf_from (s p : string) (i : nat) : option nat :=
  if String.prefix p s then Some i
  else match s with
       | EmptyString => None
       | String _ s' => indexOf_from s' p (S i)
       end.

Definition indexOf (s p : string) : option nat := indexOf_from s p 0.

Definition includes (s p : string) : bool :=
  match indexOf s p with Some _ => true | None => false end.

(** The number of matches of the global regular expression
    [new RegExp(escapeRegex(p), "g")] in [s]: non-overlapping occurrences,
    scanned from the left. *)
Fixpoint count_matches_fuel (fuel : nat) (s p : string) : nat :=
  match fuel with
  | O => O
  | S f =>
      if String.prefix p s then
        S (count_matches_fuel f (substring (String.length p) (String.length s) s) p)
      else match s with
           | EmptyString => O
           | String _ s' => count_matches_fuel f s' p
           end
  end.

Definition count_matches (s p : string) : nat :=
  count_matches_fuel (S (String.length s)) s p.

(** [s.slice(a, b)] for [0 <= a <= b]. *)
Definition slice (s : string) (a b : nat) : string := substring a (b - a) s.

Definition is_space (c : ascii) : bool :=
  let n := ascii_code c in ((9 <=? n)%nat && (n <=? 13)%nat) || (n =? 32)%nat.

Fixpoint trim_start (s : string) : string :=
  match s with
  | EmptyString => EmptyString
  | String c s' => if is_space c then trim_start s' else s
  end.

Definition string_rev (s : string) : string :=
  string_of_list_ascii (rev (list_ascii_of_string s)).

(** [String.prototype.trim] on the byte range modelled: it strips the
    ASCII whitespace; the other Unicode spaces and line terminators
    JavaScript also strips lie outside that range. *)
Definition trim (s : string) : string :=
  string_rev (trim_start (string_rev (trim_start s))).

(** The ellipsis character U+2026, as its UTF-8 bytes. *)
Definition ellipsis : string :=
  String (ascii_of_nat 226) (String (ascii_of_nat 128) (String (ascii_of_nat 166) "")).

Definition dquote : ascii := ascii_of_nat 34.
Definition newline : string := String (ascii_of_nat 10) "".

(** [/^".+"$/.test(q)]: a double quote at both ends around at least one
    character other than a line terminator. *)
Definition isQuoted (q : string) : bool :=
  let l := list_ascii_of_string q in
  match l with
  | c :: rest =>
      match rev rest with
      | c' :: mid_rev =>
          (if ascii_dec c dquote then true else false)
          && (if ascii_dec c' dquote then true else false)
          && negb (bool_decide (mid_rev = []))
          && forallb (fun x => negb ((ascii_code x =? 10)%nat || (ascii_code x =? 13)%nat)) mid_rev
      | [] => false
      end
  | [] => false
  end.

(** [q.slice(1, -1)]. *)
Definition unquote (q : string) : string :=
  substring 1 (String.length q - 2) q.

(** [filename.replace(/\.txt$/i, "")]. *)
Definition strip_txt (f : string) : string :=
  let n := String.length f in
  if (4 <=? n)%nat && String.eqb (toLowerCase (substring (n - 4) 4 f)) ".txt"
  then substring 0 (n - 4) f else f.

(* ------------------------------------------------------------------ *)
(** ** Data model (types.ts; [url] as App.tsx sets it) *)

Record Doc := mkDoc {
  d_id : string;
  d_title : string;
  d_content : string;
  d_url : string
}.

Record SearchResult := mkResult {
  r_id : string;
  r_title : string;
  r_excerpt : string;
  r_score : Z;
  r_matches : Z;
  r_content : string;
  r_url : string
}.

(** A JavaScript [Map] with string keys, in insertion order: [set] on a
    present key replaces the value in place, on a new key appends. *)
Fixpoint map_set {V} (m : list (string * V)) (k : string) (v : V) : list (string * V) :=
  match m with
  | [] => [(k, v)]
  | (k', v') :: m' => if String.eqb k k' then (k, v) :: m' else (k', v') :: map_set m' k v
  end.

Fixpoint map_get {V} (m : list (string * V)) (k : string) : option V :=
  match m with
  | [] => None
  | (k', v') :: m' => if String.eqb k k' then Some v' else map_get m' k
  end.

Definition map_has {V} (m : list (string * V)) (k : string) : bool :=
  match map_get m k with Some _ => true | None => false end.

(** A JavaScript [Set] of strings, in insertion order. *)
Definition set_add (s : list string) (x : string) : list string :=
  if bool_decide (x ∈ s) then s else s ++ [x].

Definition set_delete (s : list string) (x : string) : list string :=
  filter (fun y => negb (String.eqb y x)) s.

Definition set_has (s : list string) (x : string) : bool := bool_decide (x ∈ s).

(* ------------------------------------------------------------------ *)
(** ** Document store adapter *)

Definition BASE_URL : string :=
  "https://raw.githubusercontent.com/AwesomeCoder412412/stupid/refs/heads/main/articles_text2/".

Definition hex_digit (n : nat) : ascii :=
  if (n <? 10)%nat then ascii_of_nat (48 + n) else ascii_of_nat (55 + n).

(** Characters [encodeURIComponent] leaves alone: [A-Za-z0-9-_.!~*'()]. *)
Definition uri_unreserved (c : ascii) : bool :=
  let n := ascii_code c in
  ((65 <=? n)%nat && (n <=? 90)%nat) || ((97 <=? n)%nat && (n <=? 122)%nat)
  || ((48 <=? n)%nat && (n <=? 57)%nat)
  || bool_decide (n ∈ [45; 95; 46; 33; 126; 42; 39; 40; 41]%nat).

(** [encodeURIComponent] over the UTF-8 bytes of the string: every other
    byte becomes [%XX]. *)
Fixpoint encodeURIComponent (s : string) : string :=
  match s with
  | EmptyString => EmptyString
  | String c s' =>
      if uri_unreserved c then String c (encodeURIComponent s')
      else String "%"%char (String (hex_digit (ascii_code c / 16))
             (String (hex_digit (ascii_code c mod 16)) (encodeURIComponent s')))
  end.

(** What one [fetch] call gives back: a thrown network error, a response
    whose [ok] is false, or a successful response with its text. *)
Inductive fetch_result := NetError | NotOk | Ok (body : string).

(** The try block of [next] in App.tsx: the encoded path first, the raw
    path after a non-success response, the empty content in the catch
    block. Returns the paths requested, in order, and the content the
    document is indexed with. *)
Definition fetch_document (fetch : string -> fetch_result) (filename : string)
  : list string * string :=
  let p1 := BASE_URL ++ encodeURIComponent filename in
  match fetch p1 with
  | NetError => ([p1], "")
  | Ok text => ([p1], text)
  | NotOk =>
      let p2 := BASE_URL ++ filename in
      match fetch p2 with
      | NetError => ([p1; p2], "")
      | NotOk => ([p1; p2], "")
      | Ok text => ([p1; p2], text)
      end
  end.

(** [fetchText] of search.ts: the same policy for [buildIndex]. *)
Definition fetchText (fetch : string -> fetch_result) (baseUrl filename : string)
  : list string * string :=
  let url := baseUrl ++ encodeURIComponent filename in
  match fetch url with
  | NetError => ([url], "")
  | Ok text => ([url], text)
  | NotOk =>
      let p2 := baseUrl ++ filename in
      match fetch p2 with
      | Ok text => ([url; p2], text)
      | _ => ([url; p2], "")
      end
  end.

(* ------------------------------------------------------------------ *)
(** ** Document table and inverted index ([indexDoc]) *)

Record Index := mkIndex {
  docs : list (string * Doc);                 (* docsRef: Map<string, Doc> *)
  inverted : gmap string (list string);       (* invertedRef: Map<string, Set<string>> *)
  fuse_docs : list Doc                        (* the documents added to fuseRef *)
}.

Definition empty_index : Index := mkIndex [] ∅ [].

Definition postings (inv : gmap string (list string)) (t : string) : list string :=
  default [] (inv !! t).

(** The token set [new Set([...tokenize(d.title), ...tokenize(d.content)])]. *)
Definition doc_tokens (d : Doc) : list string :=
  remove_dups (tokenize (d_title d) ++ tokenize (d_content d)).

Definition add_posting (id : string) (inv : gmap string (list string)) (t : string)
  : gmap string (list string) :=
  <[t := set_add (postings inv t) id]> inv.

Definition indexDoc (ix : Index) (d : Doc) : Index :=
  mkIndex (map_set (docs ix) (d_id d) d)
          (foldl (add_posting (d_id d)) (inverted ix) (doc_tokens d))
          (fuse_docs ix ++ [d]).

(* ------------------------------------------------------------------ *)
(** ** The indexing run ([fetchManifestAndIndex] with its workers [next])

    JavaScript runs the workers on one thread and suspends them only at
    [await]; everything between two suspensions is one step here. A step
    is an event of the environment: the manifest or URL-list response, a
    pending [next] call starting, or the document fetch of a claimed
    filename completing (with the responses the network gave for it). *)

Inductive status := Idle | Indexing | Ready | Error.

Inductive phase := PInit | PAwaitManifest | PAwaitUrls | PWorkers | PDone.

(** One live promise chain started by a worker: a [next()] call not yet
    run (the initial starters, or one scheduled by [setTimeout]), or one
    suspended on the fetch of the filename and URL it shifted. *)
Inductive task := Scheduled | Claimed (filename url : string).

Record St := mkSt {
  st_status : status;
  st_phase : phase;
  st_progress : nat * nat;       (* the React state [progress]: (done, total) *)
  st_manifest : list string;
  st_urls : list string;         (* the URL list fetched after the manifest *)
  st_queue : list string;
  st_urlqueue : list string;
  st_done : nat;                 (* the closure variable [done] *)
  st_active : nat;
  st_tasks : list task;
  st_index : Index
}.

Definition init : St :=
  mkSt Idle PInit (0, 0)%nat [] [] [] [] 0 0 [] empty_index.

(** [Math.min(8, Math.max(2, Math.floor(navigator.hardwareConcurrency || 4)))]. *)
Definition concurrency (hc : nat) : nat :=
  Nat.min 8 (Nat.max 2 (if (hc =? 0)%nat then 4 else hc)).

Inductive event :=
  | EBegin                                   (* setStatus("indexing") *)
  | EManifest (res : option (list string))   (* manifest response; None: failure *)
  | EUrls (res : option (list string)) (hc : nat)  (* URL list response *)
  | EStart (i : nat)                         (* the pending next() of task i runs *)
  | EFinish (i : nat) (fetch : string -> fetch_result)
                                             (* the fetches of task i complete *)
  | EReady.                                  (* Promise.all(starters) resolves *)

Definition with_status (s : St) (x : status) (p : phase) : St :=
  mkSt x p (st_progress s) (st_manifest s) (st_urls s) (st_queue s) (st_urlqueue s)
       (st_done s) (st_active s) (st_tasks s) (st_index s).

(** The start of [next()]: resolve on an empty queue or URL queue,
    otherwise shift both and suspend on the fetch. *)
Definition start_task (s : St) (i : nat) : St :=
  match st_queue s, st_urlqueue s with
  | f :: q', u :: uq' =>
      mkSt (st_status s) (st_phase s) (st_progress s) (st_manifest s) (st_urls s) q' uq'
           (st_done s) (S (st_active s)) (<[i := Claimed f u]> (st_tasks s)) (st_index s)
  | _, _ =>
      mkSt (st_status s) (st_phase s) (st_progress s) (st_manifest s) (st_urls s) (st_queue s)
           (st_urlqueue s) (st_done s) (st_active s) (delete i (st_tasks s)) (st_index s)
  end.

(** The rest of [next()] once the fetches are done: [indexDoc], then the
    [finally] block, which schedules the next call or resolves. *)
Definition finish_task (s : St) (i : nat) (f u : string) (fetch : string -> fetch_result) : St :=
  let content := snd (fetch_document fetch f) in
  let d := mkDoc f (strip_txt f) content u in
  let done' := S (st_done s) in
  mkSt (st_status s) (st_phase s) (done', length (st_manifest s)) (st_manifest s)
       (st_urls s) (st_queue s) (st_urlqueue s) done' (pred (st_active s))
       (match st_queue s with
        | [] => delete i (st_tasks s)
        | _ :: _ => <[i := Scheduled]> (st_tasks s)
        end)
       (indexDoc (st_index s) d).

Definition exec (e : event) (s : St) : option St :=
  match e, st_phase s with
  | EBegin, PInit => Some (with_status s Indexing PAwaitManifest)
  | EManifest None, PAwaitManifest => Some (with_status s Error PDone)
  | EManifest (Some m), PAwaitManifest =>
      Some (mkSt (st_status s) PAwaitUrls (0, length m)%nat m (st_urls s) (st_queue s) (st_urlqueue s)
                 (st_done s) (st_active s) (st_tasks s) (st_index s))
  | EUrls None _, PAwaitUrls => Some (with_status s Error PDone)
  | EUrls (Some urls) hc, PAwaitUrls =>
      Some (mkSt (st_status s) PWorkers (st_progress s) (st_manifest s) urls (st_manifest s) urls
                 0 0 (replicate (concurrency hc) Scheduled) (st_index s))
  | EStart i, PWorkers =>
      match st_tasks s !! i with
      | Some Scheduled => Some (start_task s i)
      | _ => None
      end
  | EFinish i fetch, PWorkers =>
      match st_tasks s !! i with
      | Some (Claimed f u) => Some (finish_task s i f u fetch)
      | _ => None
      end
  | EReady, PWorkers =>
      match st_tasks s with
      | [] => Some (with_status s Ready PDone)
      | _ => None
      end
  | _, _ => None
  end.

Definition step (s s' : St) : Prop := exists e, exec e s = Some s'.

Fixpoint run (es : list event) (s : St) : option St :=
  match es with
  | [] => Some s
  | e :: es' => match exec e s with Some s' => run es' s' | None => None end
  end.

Definition reachable (s : St) : Prop := exists es, run es init = Some s.

(* ------------------------------------------------------------------ *)
(** ** Query engine ([doSearch] of App.tsx) *)

(** [Math.round]: the nearest integer, halves upward. It is applied here
    to the exact product [score * 100]; the runtime rounds the
    floating-point product, which can differ by one near a half (0.015
    gives 51 here and 52 in JavaScript). The ordering results below only
    use that it is non-negative on a non-negative product. *)
Definition js_round (x : Q) : Z := Qfloor (x + (1 # 2)).

(** [makeExcerpt(content, idx, matchLen, len = 220)]. *)
Definition makeExcerpt (content : string) (idx : nat) (matchLen : nat) : string :=
  let len := 220%nat in
  let start := (idx - len / 2)%nat in
  let snippet := slice content start (Nat.min (String.length content) (start + len)) in
  (if (0 <? start)%nat then ellipsis else "") ++ snippet
  ++ (if (start + len <? String.length content)%nat then ellipsis else "").

(** The phrase: the unquoted content of a quoted query, else the query,
    case-folded. *)
Definition phrase_of (q : string) : string :=
  if isQuoted q then toLowerCase (unquote q) else toLowerCase q.

(** Step 1: exact phrase in title. *)
Definition tier0_hit (phrase : string) (hits : list (string * SearchResult)) (e : string * Doc)
  : list (string * SearchResult) :=
  let '(id, d) := e in
  let titleLower := toLowerCase (d_title d) in
  if includes titleLower phrase then
    map_set hits id (mkResult id (d_title d) (d_title d) 0
                       (Z.of_nat (count_matches titleLower phrase)) (d_content d) (d_url d))
  else hits.

(** Step 2: exact phrase in content. *)
Definition tier1_hit (phrase : string) (hits : list (string * SearchResult)) (e : string * Doc)
  : list (string * SearchResult) :=
  let '(id, d) := e in
  if map_has hits id then hits
  else
    let contentLower := toLowerCase (d_content d) in
    match indexOf contentLower phrase with
    | Some idx =>
        map_set hits id (mkResult id (d_title d) (makeExcerpt (d_content d) idx (String.length phrase))
                           10 (Z.of_nat (count_matches contentLower phrase)) (d_content d) (d_url d))
    | None => hits
    end.

Definition exact_hits (allDocs : list (string * Doc)) (phrase : string)
  : list (string * SearchResult) :=
  foldl (tier1_hit phrase) (foldl (tier0_hit phrase) [] allDocs) allDocs.

(** Step 3: the loop over the query tokens; [None] is [candidateIds === null]. *)
Fixpoint narrow_loop (inv : gmap string (list string)) (ts : list string)
  (cand : option (list string)) : option (list string) :=
  match ts with
  | [] => cand
  | t :: ts' =>
      match inv !! t with
      | None => Some []
      | Some set =>
          let cand' := match cand with
                       | None => set
                       | Some c => filter (fun id => set_has set id) c
                       end in
          if (length cand' =? 0)%nat then Some cand' else narrow_loop inv ts' (Some cand')
      end
  end.

Definition narrow (inv : gmap string (list string)) (tokens : list string) : option (list string) :=
  if (0 <? length tokens)%nat then narrow_loop inv tokens None else None.

(** The candidate set after the fallback to all documents and the removal
    of the exact hits. *)
Definition candidate_ids (ix : Index) (q : string) (hits : list (string * SearchResult))
  : list string :=
  let c := match narrow (inverted ix) (tokenize q) with
           | Some c => c
           | None => map fst (docs ix)
           end in
  foldl set_delete c (map fst hits).

(** A fuzzy hit in the hits map: [score = Math.round((fr.score ?? 1) * 100) + 50]. *)
Definition tier2_hit (q : string) (hits : list (string * SearchResult)) (fr : Doc * option Q)
  : list (string * SearchResult) :=
  let '(d, sc) := fr in
  if map_has hits (d_id d) then hits
  else
    let score := (js_round (default 1%Q sc * 100)%Q + 50)%Z in
    let excerpt :=
      match indexOf (toLowerCase (d_content d)) (toLowerCase q) with
      | Some pos => makeExcerpt (d_content d) pos (String.length q)
      | None => slice (d_content d) 0 250
                ++ (if (250 <? String.length (d_content d))%nat then ellipsis else "")
      end in
    map_set hits (d_id d) (mkResult (d_id d) (d_title d) excerpt score 0 (d_content d) (d_url d)).

Section Search.

(** [a.title.localeCompare(b.title)]: the runtime's collation. *)
Variable localeCompare : string -> string -> Z.
(** [new Fuse(candidateArray, {threshold: 0.45, ...}).search(q, {limit})]. *)
Variable small_fuse_search : list Doc -> string -> nat -> list (Doc * option Q).
(** [fuseRef.current.search(q, {limit})] over the documents added to it. *)
Variable global_fuse_search : list Doc -> string -> nat -> list (Doc * option Q).
(** [AIU(system, prompt)] of gptItYourself.ts. *)
Variable AIU : string -> string -> string.

Definition fuzzyResults (ix : Index) (q : string) (cand : list string) : list (Doc * option Q) :=
  if (0 <? length cand)%nat then
    let candidateArray := omap (map_get (docs ix)) cand in
    if (length candidateArray <=? 600)%nat then small_fuse_search candidateArray q 500
    else global_fuse_search (fuse_docs ix) q 500
  else [].

Definition hitsMap (ix : Index) (q : string) : list (string * SearchResult) :=
  let hits := exact_hits (docs ix) (phrase_of q) in
  foldl (tier2_hit q) hits (fuzzyResults ix q (candidate_ids ix q hits)).

(** The comparator [(a, b) => ...] passed to [hitsArr.sort]. *)
Definition result_cmp (a b : SearchResult) : Z :=
  if negb (Z.eqb (r_score a) (r_score b)) then (r_score a - r_score b)%Z
  else if negb (Z.eqb (r_matches b) (r_matches a)) then (r_matches b - r_matches a)%Z
  else localeCompare (r_title a) (r_title b).

(** [Array.prototype.sort] is stable; a stable insertion sort computes the
    same array for a consistent comparator. *)
Fixpoint insert_sorted (x : SearchResult) (l : list SearchResult) : list SearchResult :=
  match l with
  | [] => [x]
  | y :: l' => if (result_cmp x y <? 0)%Z then x :: y :: l' else y :: insert_sorted x l'
  end.

Definition sort_results (l : list SearchResult) : list SearchResult :=
  foldl (fun acc x => insert_sorted x acc) [] l.

(** [hitsArr] after the sort. *)
Definition ranked (ix : Index) (q : string) : list SearchResult :=
  sort_results (map snd (hitsMap ix q)).

Definition ai_prompt_head (q : string) : string :=
  "The user asked: " ++ q ++ newline
  ++ " I am now going to give you the contents of several academic papers that are relevant to this topic. Use ONLY KNOWLEDGE FROM THE FOLLOWING PAPERS to answer the user's question. Every piece of information you get from the papers MUST BE CITED with the title of cited paper in parentheses at the end of the relevant sentences. Thank you very much. BEGIN PAPERS: ".

(** The [while (count < 3 && count < hitsArr.length)] loop. *)
Definition ai_prompt (ix : Index) (q : string) (hitsArr : list SearchResult) : string :=
  foldl (fun acc h =>
           acc ++ "PAPER TITLE: " ++ r_title h ++ " PAPER CONTENT: "
           ++ AIU "" ("Please summarize the key statistics and points in this paper for another AI to be able to quickly read and get as much infomration out of this as possible: "
                      ++ match map_get (docs ix) (r_id h) with
                         | Some d => d_content d
                         | None => "undefined"
                         end)
           ++ "END PAPER CONTENT. ")
        (ai_prompt_head q) (take 3 hitsArr).

(** [doSearch]: the list passed to [setResults], or [None] where the code
    throws ([hitsArr[0].title] on an empty [hitsArr]). *)
Definition doSearch (ix : Index) (q0 : string) : option (list SearchResult) :=
  let q := trim q0 in
  if String.eqb q "" then Some []
  else
    let hitsArr := ranked ix q in
    if includes q "?" then
      match hitsArr with
      | [] => None
      | h0 :: _ =>
          Some [mkResult "AI" "AI Summary"
                  (AIU "You are a concise, factual assistant. Your job is to summarize and help people learn about papers on Space Biology."
                       (ai_prompt ix q hitsArr) ++ newline ++ " Papers Cited: " ++ r_title h0)
                  0 1 "" ""]
      end
    else Some hitsArr.

End Search.

(* ================================================================== *)
(** * Proofs *)

(** ** Insertion-ordered maps and sets *)

Lemma map_get_Some {V} (m : list (string * V)) k v :
  map_get m k = Some v -> In (k, v) m.
Proof.
  induction m as [|[k' v'] m IH]; simpl; [discriminate|].
  destruct (String.eqb_spec k k') as [->|]; [intros [= ->]; auto | auto].
Qed.

Lemma map_get_None {V} (m : list (string * V)) k :
  map_get m k = None -> k ∉ map fst m.
Proof.
  induction m as [|[k' v'] m IH]; simpl; [intros _; apply not_elem_of_nil|].
  destruct (String.eqb_spec k k') as [->|Hne]; [discriminate|].
  intros H. rewrite elem_of_cons. intros [?|?]; [congruence|]. by apply IH.
Qed.

Lemma map_has_false {V} (m : list (string * V)) k :
  map_has m k = false -> k ∉ map fst m.
Proof. unfold map_has. destruct (map_get m k) eqn:E; [discriminate|]. intros _. by apply map_get_None. Qed.

Lemma In_map_set {V} (m : list (string * V)) k v x :
  In x (map_set m k v) -> x = (k, v) \/ In x m.
Proof.
  induction m as [|[k' v'] m IH]; simpl; [intuition|].
  destruct (String.eqb_spec k k'); simpl; intuition.
Qed.

Lemma map_set_keeps {V} (m : list (string * V)) k v x :
  k ∉ map fst m -> In x m -> In x (map_set m k v).
Proof.
  induction m as [|[k' v'] m IH]; simpl; [tauto|].
  rewrite elem_of_cons. intros Hk.
  destruct (String.eqb_spec k k') as [->|]; [exfalso; auto|].
  simpl. intros [?|?]; [auto|right; auto].
Qed.

Lemma In_map_set_new {V} (m : list (string * V)) k v : In (k, v) (map_set m k v).
Proof.
  induction m as [|[k' v'] m IH]; simpl; [auto|].
  destruct (String.eqb_spec k k'); simpl; auto.
Qed.

Lemma keys_map_set {V} (m : list (string * V)) k v :
  map fst (map_set m k v) = if bool_decide (k ∈ map fst m) then map fst m else (map fst m ++ [k])%list.
Proof.
  induction m as [|[k' v'] m IH]; simpl; [done|].
  destruct (String.eqb_spec k k') as [->|Hne]; simpl.
  - rewrite (bool_decide_true (k' ∈ k' :: map fst m)); [done|apply elem_of_cons; auto].
  - rewrite IH. destruct (decide (k ∈ map fst m)) as [H|H].
    + rewrite (bool_decide_true (k ∈ map fst m)) by done.
      rewrite (bool_decide_true (k ∈ k' :: map fst m)); [done|apply elem_of_cons; auto].
    + rewrite (bool_decide_false (k ∈ map fst m)) by done.
      rewrite (bool_decide_false (k ∈ k' :: map fst m)); [done|].
      rewrite elem_of_cons. intros [?|?]; auto.
Qed.

Lemma NoDup_keys_map_set {V} (m : list (string * V)) k v :
  NoDup (map fst m) -> NoDup (map fst (map_set m k v)).
Proof.
  intros H. rewrite keys_map_set. case_bool_decide; [done|].
  apply NoDup_app. split; [done|]. split; [|apply NoDup_singleton].
  intros x Hx Hx'. apply list_elem_of_singleton in Hx'. subst. done.
Qed.

Lemma keys_map_set_elem {V} (m : list (string * V)) k v x :
  x ∈ map fst (map_set m k v) <-> x = k \/ x ∈ map fst m.
Proof.
  rewrite keys_map_set. case_bool_decide.
  - split; [intros Hx; right; exact Hx|]. intros [->|Hx]; [exact H|exact Hx].
  - rewrite elem_of_app, list_elem_of_singleton. tauto.
Qed.

(** ** C4: the document fetch policy *)

(** [fetchText] of search.ts follows the same policy as [next] in App.tsx. *)
Lemma fetchText_fetch_document fetch filename :
  fetchText fetch BASE_URL filename = fetch_document fetch filename.
Proof.
  unfold fetchText, fetch_document.
  destruct (fetch (BASE_URL ++ encodeURIComponent filename)); [done|..|done].
  destruct (fetch (BASE_URL ++ filename)); done.
Qed.

(** C4 (as amended): the encoded path is requested first; only a
    non-success response leads to one retry with the raw identifier; a
    thrown network error on the first request ends the fetch with the
    empty content; whatever happens, a content string is produced, the
    empty one when no successful response arrived. search.ts's [fetchText]
    behaves identically. *)
Theorem fetch_document_policy (fetch : string -> fetch_result) (filename : string) :
  let p1 := BASE_URL ++ encodeURIComponent filename in
  let p2 := BASE_URL ++ filename in
  fst (fetch_document fetch filename)
    = p1 :: (match fetch p1 with NotOk => [p2] | _ => [] end)
  /\ snd (fetch_document fetch filename)
    = match fetch p1 with
      | Ok t => t
      | NetError => ""
      | NotOk => match fetch p2 with Ok t => t | _ => "" end
      end
  /\ fetchText fetch BASE_URL filename = fetch_document fetch filename.
Proof.
  simpl. split; [|split; [|apply fetchText_fetch_document]];
  unfold fetch_document; destruct (fetch _); try done;
  destruct (fetch (BASE_URL ++ filename)); done.
Qed.

(** C4 counterexample: when the first request throws, no second request
    with the raw identifier is made. *)
Lemma fetch_document_no_retry_on_throw :
  fetch_document (fun _ => NetError) "Mars Soil.txt"
    = ([BASE_URL ++ "Mars%20Soil.txt"], "")
  /\ ~ In (BASE_URL ++ "Mars Soil.txt") (fst (fetch_document (fun _ => NetError) "Mars Soil.txt")).
Proof.
  split; [reflexivity|]. simpl. intros [H|[]].
  apply (f_equal String.length) in H. vm_compute in H. discriminate.
Qed.

(** ** Building the hits map *)

Section FoldMaps.
Context {A V : Type}.

Lemma foldl_map_inv (f : list (string * V) -> A -> list (string * V))
  (Q : A -> string * V -> Prop) (l : list A) (acc : list (string * V)) x :
  (forall m a y, In y (f m a) -> In y m \/ Q a y) ->
  In x (foldl f acc l) -> In x acc \/ exists a, In a l /\ Q a x.
Proof.
  intros Hf. revert acc. induction l as [|a l IH]; intros acc Hx; simpl in *; [auto|].
  destruct (IH _ Hx) as [H|[a' [Ha' HQ]]]; [|eauto].
  destruct (Hf _ _ _ H); eauto.
Qed.

Lemma foldl_map_keep (f : list (string * V) -> A -> list (string * V)) (l : list A) acc x :
  (forall m a y, In y m -> In y (f m a)) -> In x acc -> In x (foldl f acc l).
Proof.
  intros Hf. revert acc. induction l as [|a l IH]; intros acc Hx; simpl; auto.
Qed.

Lemma foldl_map_nodup (f : list (string * V) -> A -> list (string * V)) (l : list A) acc :
  (forall m a, NoDup (map fst m) -> NoDup (map fst (f m a))) ->
  NoDup (map fst acc) -> NoDup (map fst (foldl f acc l)).
Proof.
  intros Hf. revert acc. induction l as [|a l IH]; intros acc Hx; simpl; auto.
Qed.

End FoldMaps.

Lemma NoDup_keys_unique {V} (m : list (string * V)) k v1 v2 :
  NoDup (map fst m) -> In (k, v1) m -> In (k, v2) m -> v1 = v2.
Proof.
  induction m as [|[k' v'] m IH]; simpl; [tauto|].
  intros Hnd. apply NoDup_cons in Hnd as [Hk Hnd].
  intros [E1|H1] [E2|H2].
  - congruence.
  - injection E1 as -> ->. exfalso. apply Hk, list_elem_of_In, in_map_iff. exists (k, v2). auto.
  - injection E2 as -> ->. exfalso. apply Hk, list_elem_of_In, in_map_iff. exists (k, v1). auto.
  - eauto.
Qed.

Lemma In_key {V} (m : list (string * V)) k v : In (k, v) m -> k ∈ map fst m.
Proof. intros H. apply list_elem_of_In, in_map_iff. exists (k, v). auto. Qed.

(** What an entry of each tier records. *)
Definition tier0_entry (phrase : string) (e : string * Doc) (x : string * SearchResult) : Prop :=
  let '(id, d) := e in
  fst x = id /\ r_id (snd x) = id /\ includes (toLowerCase (d_title d)) phrase = true
  /\ r_title (snd x) = d_title d /\ r_excerpt (snd x) = d_title d /\ r_score (snd x) = 0%Z.

Definition tier1_entry (phrase : string) (e : string * Doc) (x : string * SearchResult) : Prop :=
  let '(id, d) := e in
  exists idx, fst x = id /\ r_id (snd x) = id
  /\ indexOf (toLowerCase (d_content d)) phrase = Some idx
  /\ r_title (snd x) = d_title d
  /\ r_excerpt (snd x) = makeExcerpt (d_content d) idx (String.length phrase)
  /\ r_score (snd x) = 10%Z.

Definition tier2_entry (fr : Doc * option Q) (x : string * SearchResult) : Prop :=
  let '(d, sc) := fr in
  fst x = d_id d /\ r_id (snd x) = d_id d /\ r_title (snd x) = d_title d
  /\ r_score (snd x) = (js_round (default 1%Q sc * 100)%Q + 50)%Z /\ r_matches (snd x) = 0%Z.

Lemma tier0_hit_inv phrase m e y :
  In y (tier0_hit phrase m e) -> In y m \/ tier0_entry phrase e y.
Proof.
  destruct e as [id d]. unfold tier0_hit. destruct (includes _ _) eqn:E; [|auto].
  intros [->|H]%In_map_set; [right|auto]. simpl. auto 10.
Qed.

Lemma tier1_hit_inv phrase m e y :
  In y (tier1_hit phrase m e) -> In y m \/ tier1_entry phrase e y.
Proof.
  destruct e as [id d]. unfold tier1_hit. destruct (map_has m id); [auto|].
  destruct (indexOf _ _) as [idx|] eqn:E; [|auto].
  intros [->|H]%In_map_set; [right|auto]. simpl. exists idx. auto 10.
Qed.

Lemma tier2_hit_inv q m fr y :
  In y (tier2_hit q m fr) -> In y m \/ tier2_entry fr y.
Proof.
  destruct fr as [d sc]. unfold tier2_hit. destruct (map_has m (d_id d)) eqn:E; [auto|].
  intros [->|H]%In_map_set; [right|auto]. simpl. auto 10.
Qed.

Lemma tier1_hit_keep phrase m e y : In y m -> In y (tier1_hit phrase m e).
Proof.
  destruct e as [id d]. unfold tier1_hit. destruct (map_has m id) eqn:E; [auto|].
  destruct (indexOf _ _); [|auto]. apply map_set_keeps. by apply map_has_false.
Qed.

Lemma tier2_hit_keep q m fr y : In y m -> In y (tier2_hit q m fr).
Proof.
  destruct fr as [d sc]. unfold tier2_hit. destruct (map_has m (d_id d)) eqn:E; [auto|].
  apply map_set_keeps. by apply map_has_false.
Qed.

Lemma tier0_hit_nodup phrase m e : NoDup (map fst m) -> NoDup (map fst (tier0_hit phrase m e)).
Proof.
  destruct e as [id d]. unfold tier0_hit. destruct (includes _ _); [apply NoDup_keys_map_set|auto].
Qed.

Lemma tier1_hit_nodup phrase m e : NoDup (map fst m) -> NoDup (map fst (tier1_hit phrase m e)).
Proof.
  destruct e as [id d]. unfold tier1_hit. destruct (map_has m id); [auto|].
  destruct (indexOf _ _); [apply NoDup_keys_map_set|auto].
Qed.

Lemma tier2_hit_nodup q m fr : NoDup (map fst m) -> NoDup (map fst (tier2_hit q m fr)).
Proof.
  destruct fr as [d sc]. unfold tier2_hit. destruct (map_has m (d_id d)); [auto|].
  apply NoDup_keys_map_set.
Qed.

Lemma exact_hits_inv (allDocs : list (string * Doc)) phrase x :
  In x (exact_hits allDocs phrase) ->
  (exists e, In e allDocs /\ tier0_entry phrase e x)
  \/ (exists e, In e allDocs /\ tier1_entry phrase e x).
Proof.
  unfold exact_hits. intros H.
  destruct (foldl_map_inv _ _ _ _ _ (tier1_hit_inv phrase) H) as [H0|?]; [|auto].
  destruct (foldl_map_inv _ _ _ _ _ (tier0_hit_inv phrase) H0) as [[]|?]; auto.
Qed.

Lemma exact_hits_nodup (allDocs : list (string * Doc)) phrase :
  NoDup (map fst (exact_hits allDocs phrase)).
Proof.
  unfold exact_hits. apply foldl_map_nodup; [apply tier1_hit_nodup|].
  apply foldl_map_nodup; [apply tier0_hit_nodup|constructor].
Qed.

(** The tier-0 entries survive step 2. *)
Lemma tier0_in_exact_hits (allDocs : list (string * Doc)) phrase x :
  In x (foldl (tier0_hit phrase) [] allDocs) -> In x (exact_hits allDocs phrase).
Proof. unfold exact_hits. apply foldl_map_keep, tier1_hit_keep. Qed.

Section HitsMap.
Variable small_fuse_search : list Doc -> string -> nat -> list (Doc * option Q).
Variable global_fuse_search : list Doc -> string -> nat -> list (Doc * option Q).

Let fuzzy ix q := fuzzyResults small_fuse_search global_fuse_search ix q
                    (candidate_ids ix q (exact_hits (docs ix) (phrase_of q))).
Let hits ix q := hitsMap small_fuse_search global_fuse_search ix q.

Lemma hitsMap_inv ix q x :
  In x (hits ix q) ->
  (exists e, In e (docs ix) /\ tier0_entry (phrase_of q) e x)
  \/ (exists e, In e (docs ix) /\ tier1_entry (phrase_of q) e x)
  \/ (exists fr, In fr (fuzzy ix q) /\ tier2_entry fr x).
Proof.
  unfold hits, hitsMap. intros H.
  destruct (foldl_map_inv _ _ _ _ _ (tier2_hit_inv q) H) as [H0|?]; [|auto].
  destruct (exact_hits_inv _ _ _ H0); auto.
Qed.

Lemma hitsMap_nodup ix q : NoDup (map fst (hits ix q)).
Proof. apply foldl_map_nodup; [apply tier2_hit_nodup|apply exact_hits_nodup]. Qed.

Lemma exact_in_hitsMap ix q x :
  In x (exact_hits (docs ix) (phrase_of q)) -> In x (hits ix q).
Proof. apply foldl_map_keep, tier2_hit_keep. Qed.

Lemma hitsMap_key ix q x : In x (hits ix q) -> r_id (snd x) = fst x.
Proof.
  intros H. destruct (hitsMap_inv _ _ _ H) as [[[id d] [_ Hx]]|[[[id d] [_ Hx]]|[[d sc] [_ Hx]]]];
  simpl in Hx; [|destruct Hx as [idx Hx]|]; intuition congruence.
Qed.

(** An entry whose key an exact tier placed is that tier's entry. *)
Lemma hitsMap_exact_entry ix q x :
  In x (hits ix q) -> fst x ∈ map fst (exact_hits (docs ix) (phrase_of q)) ->
  In x (exact_hits (docs ix) (phrase_of q)).
Proof.
  intros Hx Hk. apply list_elem_of_In, in_map_iff in Hk as [[k e0] [Hk He0]].
  simpl in Hk. subst k. destruct x as [k e]. simpl in *.
  rewrite <- (NoDup_keys_unique (hits ix q) k e0 e); auto using hitsMap_nodup, exact_in_hitsMap.
Qed.

(** An entry whose key no exact tier placed comes from a fuzzy result. *)
Lemma hitsMap_fuzzy_entry ix q x :
  In x (hits ix q) -> fst x ∉ map fst (exact_hits (docs ix) (phrase_of q)) ->
  exists fr, In fr (fuzzy ix q) /\ tier2_entry fr x.
Proof.
  unfold hits, hitsMap. intros H Hk.
  destruct (foldl_map_inv _ _ _ _ _ (tier2_hit_inv q) H) as [H0|?]; [|auto].
  exfalso. apply Hk. destruct x. eapply In_key. exact H0.
Qed.

End HitsMap.

(** ** The sort *)

Section Sorting.
Variable localeCompare : string -> string -> Z.

Lemma insert_sorted_perm x l : insert_sorted localeCompare x l ≡ₚ x :: l.
Proof.
  induction l as [|y l IH]; simpl; [done|].
  destruct (result_cmp _ x y <? 0)%Z; [done|].
  rewrite IH. apply perm_swap.
Qed.

Lemma sort_results_perm l : sort_results localeCompare l ≡ₚ l.
Proof.
  unfold sort_results.
  assert (Hg : forall acc, foldl (fun acc x => insert_sorted localeCompare x acc) acc l ≡ₚ acc ++ l).
  { induction l as [|x l IH]; intros acc; simpl; [by rewrite app_nil_r|].
    rewrite IH, insert_sorted_perm. rewrite <- Permutation_middle. done. }
  apply Hg.
Qed.

(** Insertion keeps a list sorted for any relation that the comparator's
    sign decides in both directions. *)
Lemma insert_sorted_Sorted (R : SearchResult -> SearchResult -> Prop) x l :
  (forall a b, (result_cmp localeCompare a b < 0)%Z -> R a b) ->
  (forall a b, (0 <= result_cmp localeCompare a b)%Z -> R b a) ->
  Sorted R l -> Sorted R (insert_sorted localeCompare x l).
Proof.
  intros H1 H2. induction l as [|y l IH]; intros Hs; simpl.
  - repeat constructor.
  - destruct (Z.ltb_spec (result_cmp localeCompare x y) 0) as [Hlt|Hge].
    + constructor; [exact Hs|constructor; auto].
    + apply Sorted_inv in Hs as [Hs Hhd]. constructor; [auto|].
      destruct l as [|z l]; simpl.
      * constructor. auto.
      * destruct (result_cmp localeCompare x z <? 0)%Z; constructor; [auto|].
        by inversion Hhd.
Qed.

Lemma sort_results_Sorted (R : SearchResult -> SearchResult -> Prop) l :
  (forall a b, (result_cmp localeCompare a b < 0)%Z -> R a b) ->
  (forall a b, (0 <= result_cmp localeCompare a b)%Z -> R b a) ->
  Sorted R (sort_results localeCompare l).
Proof.
  intros H1 H2. unfold sort_results.
  assert (Hg : forall acc, Sorted R acc ->
            Sorted R (foldl (fun acc x => insert_sorted localeCompare x acc) acc l)).
  { induction l as [|x l IH]; intros acc Hacc; simpl; [done|].
    apply IH, insert_sorted_Sorted; auto. }
  apply Hg. constructor.
Qed.

Definition score_le (a b : SearchResult) : Prop := (r_score a <= r_score b)%Z.

Lemma sort_results_score_sorted l : Sorted score_le (sort_results localeCompare l).
Proof.
  apply sort_results_Sorted; intros a b; unfold result_cmp, score_le;
  destruct (Z.eqb_spec (r_score a) (r_score b)); simpl; lia.
Qed.

Lemma sort_results_score_strongly l : StronglySorted score_le (sort_results localeCompare l).
Proof.
  apply Sorted_StronglySorted; [|apply sort_results_score_sorted].
  intros a b c; unfold score_le; lia.
Qed.

(** The ordering law of spec section 8, item 4, for one adjacent pair. *)
Definition ordered_pair (a b : SearchResult) : Prop :=
  (r_score a <= r_score b)%Z
  /\ (r_score a = r_score b -> (r_matches b <= r_matches a)%Z)
  /\ (r_score a = r_score b -> r_matches a = r_matches b ->
      (localeCompare (r_title a) (r_title b) <= 0)%Z).

Lemma sort_results_ordered l :
  (forall s t, Z.sgn (localeCompare t s) = (- Z.sgn (localeCompare s t))%Z) ->
  Sorted ordered_pair (sort_results localeCompare l).
Proof.
  intros Hlc. apply sort_results_Sorted; intros a b; unfold result_cmp, ordered_pair.
  - destruct (Z.eqb_spec (r_score a) (r_score b)); simpl; [|lia].
    destruct (Z.eqb_spec (r_matches b) (r_matches a)); simpl; lia.
  - destruct (Z.eqb_spec (r_score a) (r_score b)); simpl; [|lia].
    destruct (Z.eqb_spec (r_matches b) (r_matches a)); simpl; [|lia].
    intros H. specialize (Hlc (r_title a) (r_title b)).
    repeat split; lia.
Qed.

End Sorting.

Lemma js_round_nonneg (x : Q) : (0 <= x)%Q -> (0 <= js_round x)%Z.
Proof.
  intros Hx. unfold js_round.
  change 0%Z with (Qfloor 0). apply Qfloor_resp_le.
  apply Qle_trans with x; [exact Hx|].
  rewrite <- (Qplus_0_r x) at 1. apply Qplus_le_r. discriminate.
Qed.

Lemma tier0_fold_has phrase (allDocs : list (string * Doc)) acc id d :
  In (id, d) allDocs -> includes (toLowerCase (d_title d)) phrase = true ->
  id ∈ map fst (foldl (tier0_hit phrase) acc allDocs).
Proof.
  assert (Hmono : forall l acc k, k ∈ map fst acc -> k ∈ map fst (foldl (tier0_hit phrase) acc l)).
  { induction l as [|[k' d'] l IH]; intros acc' k Hk; simpl; [done|].
    apply IH. unfold tier0_hit. destruct (includes _ _); [|done].
    apply keys_map_set_elem. auto. }
  revert acc. induction allDocs as [|[k' d'] l IH]; intros acc Hin Hinc; simpl in *; [done|].
  destruct Hin as [[= -> ->]|Hin]; [|auto].
  apply Hmono. unfold tier0_hit. rewrite Hinc. apply keys_map_set_elem. auto.
Qed.

Lemma fuzzyResults_nonneg small global ix q cand d s :
  (forall l q' n d s, In (d, Some s) (small l q' n) -> (0 <= s)%Q) ->
  (forall l q' n d s, In (d, Some s) (global l q' n) -> (0 <= s)%Q) ->
  In (d, Some s) (fuzzyResults small global ix q cand) -> (0 <= s)%Q.
Proof.
  intros Hs Hg. unfold fuzzyResults.
  destruct (0 <? length cand)%nat; [|intros []].
  destruct (_ <=? 600)%nat; eauto.
Qed.

Section Claims.
Variable localeCompare : string -> string -> Z.
Variable small_fuse_search : list Doc -> string -> nat -> list (Doc * option Q).
Variable global_fuse_search : list Doc -> string -> nat -> list (Doc * option Q).
Variable AIU : string -> string -> string.

Lemma ranked_perm ix q :
  ranked localeCompare small_fuse_search global_fuse_search ix q
    ≡ₚ map snd (hitsMap small_fuse_search global_fuse_search ix q).
Proof. apply sort_results_perm. Qed.

Lemma ranked_ids ix q :
  map r_id (map snd (hitsMap small_fuse_search global_fuse_search ix q))
    = map fst (hitsMap small_fuse_search global_fuse_search ix q).
Proof.
  rewrite map_map. apply map_ext_in. intros x Hx. by apply hitsMap_key in Hx.
Qed.

Lemma In_ranked ix q e :
  In e (ranked localeCompare small_fuse_search global_fuse_search ix q) ->
  In (r_id e, e) (hitsMap small_fuse_search global_fuse_search ix q).
Proof.
  intros H. apply list_elem_of_In in H. rewrite ranked_perm in H.
  apply list_elem_of_In, in_map_iff in H as [[k e'] [He Hx]]. simpl in He. subst e'.
  pose proof (hitsMap_key _ _ _ _ _ Hx) as Hk. simpl in Hk. by rewrite Hk.
Qed.

(** C2 (as amended): every list [doSearch] returns is ordered by
    ascending score, then descending matches, then the title order of
    [localeCompare], the runtime's collation (any comparator whose sign is
    antisymmetric, as a collation is), not case-insensitive code order. *)
Theorem doSearch_result_order (ix : Index) (q0 : string) (l : list SearchResult) :
  (forall s t, Z.sgn (localeCompare t s) = (- Z.sgn (localeCompare s t))%Z) ->
  doSearch localeCompare small_fuse_search global_fuse_search AIU ix q0 = Some l ->
  forall i a b, l !! i = Some a -> l !! S i = Some b -> ordered_pair localeCompare a b.
Proof.
  intros Hlc Hq.
  assert (Hs : Sorted (ordered_pair localeCompare) l).
  { unfold doSearch in Hq. destruct (String.eqb _ _); [injection Hq as <-; constructor|].
    destruct (includes _ _).
    - destruct (ranked _ _ _ _ _); [discriminate|]. injection Hq as <-. repeat constructor.
    - injection Hq as <-. by apply sort_results_ordered. }
  clear Hq. induction Hs as [|x l Hs IH Hhd]; intros i a b Ha Hb; [done|].
  destruct i as [|i]; simpl in Ha, Hb; [|eauto].
  injection Ha as <-. destruct l as [|y l]; [done|]. simpl in Hb. injection Hb as <-.
  by inversion Hhd.
Qed.

(** A fuzzy entry of the ranked list: its score and where it comes from. *)
Lemma ranked_fuzzy_score (ix : Index) (q : string) :
  (forall l q' n d s, In (d, Some s) (small_fuse_search l q' n) -> (0 <= s)%Q) ->
  (forall l q' n d s, In (d, Some s) (global_fuse_search l q' n) -> (0 <= s)%Q) ->
  forall e, In e (ranked localeCompare small_fuse_search global_fuse_search ix q) ->
     r_id e ∉ map fst (exact_hits (docs ix) (phrase_of q)) ->
     exists d sc,
       In (d, sc) (fuzzyResults small_fuse_search global_fuse_search ix q
                     (candidate_ids ix q (exact_hits (docs ix) (phrase_of q))))
       /\ d_id d = r_id e
       /\ r_score e = (js_round (default 1%Q sc * 100)%Q + 50)%Z
       /\ (50 <= r_score e)%Z.
Proof.
  intros Hs Hg e He Hk. apply In_ranked in He.
  destruct (hitsMap_fuzzy_entry _ _ _ _ _ He Hk) as [[d sc] [Hin Ht]].
  destruct Ht as (Hk1 & Hid & _ & Hsc & _). simpl in *.
  exists d, sc. repeat split; auto.
  rewrite Hsc. enough (0 <= js_round (default 1%Q sc * 100)%Q)%Z by lia.
  apply js_round_nonneg. destruct sc as [s|]; simpl.
  - apply Qmult_le_0_compat; [|discriminate].
    exact (fuzzyResults_nonneg small_fuse_search global_fuse_search _ _ _ _ _ Hs Hg Hin).
  - discriminate.
Qed.

(** C3: a fuzzy (tier-2) entry scores [Math.round(fuzzyScore * 100) + 50],
    at least 50 for the non-negative scores fuse.js reports, while every
    exact entry scores 0 or 10; so in the sorted list every exact entry
    comes before every fuzzy one. *)
Theorem tier2_score_below_exact (ix : Index) (q : string) :
  (forall l q' n d s, In (d, Some s) (small_fuse_search l q' n) -> (0 <= s)%Q) ->
  (forall l q' n d s, In (d, Some s) (global_fuse_search l q' n) -> (0 <= s)%Q) ->
  let exact := map fst (exact_hits (docs ix) (phrase_of q)) in
  let hits := hitsMap small_fuse_search global_fuse_search ix q in
  let res := ranked localeCompare small_fuse_search global_fuse_search ix q in
  (forall e, In e res -> r_id e ∉ exact ->
     exists d sc,
       In (d, sc) (fuzzyResults small_fuse_search global_fuse_search ix q
                     (candidate_ids ix q (exact_hits (docs ix) (phrase_of q))))
       /\ d_id d = r_id e
       /\ r_score e = (js_round (default 1%Q sc * 100)%Q + 50)%Z
       /\ (50 <= r_score e)%Z)
  /\ (forall e, In e res -> r_id e ∈ exact -> r_score e = 0%Z \/ r_score e = 10%Z)
  /\ (forall i j e1 e2, res !! i = Some e1 -> res !! j = Some e2 ->
        r_id e1 ∈ exact -> r_id e2 ∉ exact -> (i < j)%nat).
Proof.
  intros Hs Hg exact hits res.
  pose proof (ranked_fuzzy_score ix q Hs Hg) as Hfz.
  assert (Hex : forall e, In e res -> r_id e ∈ exact -> r_score e = 0%Z \/ r_score e = 10%Z).
  { intros e He Hk. apply In_ranked in He.
    apply hitsMap_exact_entry in He; [|exact Hk].
    destruct (exact_hits_inv _ _ _ He) as [[[id d] [_ Ht]]|[[id d] [_ Ht]]];
    simpl in Ht; [|destruct Ht as [idx Ht]]; intuition. }
  split; [exact Hfz|split; [exact Hex|]].
  intros i j e1 e2 H1 H2 Hk1 Hk2.
  assert (S1 : (r_score e1 <= 10)%Z).
  { destruct (Hex e1) as [->| ->]; [eapply list_elem_of_In, list_elem_of_lookup_2; eauto|done|lia|lia]. }
  assert (S2 : (50 <= r_score e2)%Z).
  { destruct (Hfz e2) as (? & ? & ? & ? & ? & ?); [eapply list_elem_of_In, list_elem_of_lookup_2; eauto|done|done]. }
  destruct (Nat.lt_ge_cases i j) as [|Hji]; [done|exfalso].
  destruct (Nat.eq_dec i j) as [->|Hne]; [congruence|].
  pose proof (sort_results_score_strongly localeCompare
                (map snd (hitsMap small_fuse_search global_fuse_search ix q))) as Hss.
  fold (ranked localeCompare small_fuse_search global_fuse_search ix q) in Hss. fold res in Hss.
  assert (Hle : score_le e2 e1).
  { clear -Hss H1 H2 Hji Hne. revert i j H1 H2 Hji Hne.
    induction Hss as [|x l Hss IH Hall]; intros i j H1 H2 Hji Hne; [done|].
    destruct j as [|j]; destruct i as [|i]; simpl in H1, H2; try lia.
    - injection H2 as <-. rewrite Forall_forall in Hall. apply Hall.
      eapply list_elem_of_lookup_2; eauto.
    - eapply IH; eauto; lia. }
  unfold score_le in Hle. lia.
Qed.

(** C8: each document is placed by one tier only: the tier-0 entries and
    the exact entries stay in the hits map unchanged, the map has one
    entry per key, and every list [doSearch] returns has pairwise distinct
    identifiers. *)
Theorem tiers_exclusive (ix : Index) (q0 : string) :
  let q := trim q0 in
  let hits := hitsMap small_fuse_search global_fuse_search ix q in
  NoDup (map fst hits)
  /\ (forall x, In x (foldl (tier0_hit (phrase_of q)) [] (docs ix)) -> In x hits)
  /\ (forall x, In x (exact_hits (docs ix) (phrase_of q)) -> In x hits)
  /\ (forall x, In x hits -> r_id (snd x) = fst x)
  /\ (forall l, doSearch localeCompare small_fuse_search global_fuse_search AIU ix q0 = Some l ->
        NoDup (map r_id l)).
Proof.
  intros q hits.
  split; [apply hitsMap_nodup|].
  split; [intros x Hx; apply exact_in_hitsMap, tier0_in_exact_hits, Hx|].
  split; [apply exact_in_hitsMap|].
  split; [apply hitsMap_key|].
  intros l Hq. unfold doSearch in Hq. fold q in Hq.
  destruct (String.eqb q ""); [injection Hq as <-; constructor|].
  destruct (includes q "?").
  - destruct (ranked _ _ _ _ _); [discriminate|]. injection Hq as <-.
    apply NoDup_singleton.
  - injection Hq as <-. unfold ranked.
    rewrite (sort_results_perm localeCompare). fold hits.
    unfold hits. rewrite ranked_ids. apply hitsMap_nodup.
Qed.

(** C10: a document whose lowercased title contains the phrase has
    exactly one entry in the ranked list, with score 0 and its full title
    as excerpt. *)
Theorem tier0_excerpt_is_title (ix : Index) (q : string) (id : string) (d : Doc) :
  NoDup (map fst (docs ix)) ->
  In (id, d) (docs ix) ->
  includes (toLowerCase (d_title d)) (phrase_of q) = true ->
  exists e,
    In e (ranked localeCompare small_fuse_search global_fuse_search ix q)
    /\ r_id e = id /\ r_excerpt e = d_title d /\ r_title e = d_title d /\ r_score e = 0%Z
    /\ (forall e', In e' (ranked localeCompare small_fuse_search global_fuse_search ix q) ->
          r_id e' = id -> e' = e).
Proof.
  intros Hnd Hin Hinc.
  pose proof (tier0_fold_has (phrase_of q) (docs ix) [] id d Hin Hinc) as Hk.
  apply list_elem_of_In, in_map_iff in Hk as [[k e] [Hke Hx]]. simpl in Hke. subst k.
  destruct (foldl_map_inv _ _ _ _ _ (tier0_hit_inv (phrase_of q)) Hx) as [[]|[[id' d'] [Hin' Ht]]].
  simpl in Ht. destruct Ht as (Hk' & Hid & _ & Htitle & Hexc & Hsc). simpl in Hk'. subst id'.
  assert (d' = d) as -> by (eapply NoDup_keys_unique; eauto).
  assert (Hh : In (id, e) (hitsMap small_fuse_search global_fuse_search ix q)).
  { apply exact_in_hitsMap, tier0_in_exact_hits, Hx. }
  exists e. split; [|split; [done|split; [done|split; [done|split; [done|]]]]].
  - apply list_elem_of_In. rewrite ranked_perm. apply list_elem_of_In, in_map_iff.
    exists (id, e). auto.
  - intros e' He' Hid'. apply In_ranked in He'. rewrite Hid' in He'.
    eapply NoDup_keys_unique; [apply hitsMap_nodup|exact He'|exact Hh].
Qed.

End Claims.

(** ** The inverted index *)

(** The posting invariant of spec section 3: a document identifier is in
    a token's posting set iff the token is one of that document's tokens. *)
Definition index_inv (ix : Index) : Prop :=
  forall id t, id ∈ postings (inverted ix) t <->
    exists d, map_get (docs ix) id = Some d /\ t ∈ doc_tokens d.

Lemma set_add_elem (s : list string) x y : x ∈ set_add s y <-> x = y \/ x ∈ s.
Proof.
  unfold set_add. case_bool_decide as H.
  - split; [auto|]. intros [->|?]; auto.
  - rewrite elem_of_app, list_elem_of_singleton. tauto.
Qed.

Lemma postings_add_posting inv id t0 t x :
  x ∈ postings (add_posting id inv t0) t <-> (x = id /\ t = t0) \/ x ∈ postings inv t.
Proof.
  unfold add_posting, postings at 1.
  destruct (decide (t = t0)) as [->|Hne].
  - rewrite lookup_insert_eq. simpl. rewrite set_add_elem. intuition.
  - rewrite lookup_insert_ne by congruence. intuition congruence.
Qed.

Lemma postings_foldl inv id ts t x :
  x ∈ postings (foldl (add_posting id) inv ts) t <-> (x = id /\ t ∈ ts) \/ x ∈ postings inv t.
Proof.
  revert inv. induction ts as [|t0 ts IH]; intros inv; simpl.
  - split; [auto|]. intros [[_ H]|H]; [by apply not_elem_of_nil in H|done].
  - rewrite IH, postings_add_posting, elem_of_cons. intuition.
Qed.

Lemma map_get_map_set {V} (m : list (string * V)) k v k' :
  map_get (map_set m k v) k' = if String.eqb k' k then Some v else map_get m k'.
Proof.
  induction m as [|[k0 v0] m IH]; simpl; [done|].
  destruct (String.eqb_spec k k0) as [->|Hne]; simpl.
  - destruct (String.eqb_spec k' k0); done.
  - rewrite IH. destruct (String.eqb_spec k' k0) as [->|]; [|done].
    destruct (String.eqb_spec k0 k); congruence.
Qed.

(** Posting sets only grow. *)
Lemma indexDoc_postings_mono ix d t x :
  x ∈ postings (inverted ix) t -> x ∈ postings (inverted (indexDoc ix d)) t.
Proof. intros H. simpl. apply postings_foldl. auto. Qed.

(** Indexing a document whose identifier is not yet in the table keeps
    the posting invariant. *)
Lemma indexDoc_index_inv ix d :
  index_inv ix -> map_get (docs ix) (d_id d) = None -> index_inv (indexDoc ix d).
Proof.
  intros Hinv Hnew id t. simpl. rewrite postings_foldl, map_get_map_set.
  destruct (String.eqb_spec id (d_id d)) as [->|Hne].
  - rewrite (Hinv (d_id d) t), Hnew. split.
    + intros [[_ H]|[d' [H _]]]; [eauto|discriminate].
    + intros [d' [[= <-] H]]. auto.
  - rewrite (Hinv id t). intuition.
Qed.

Lemma empty_index_inv : index_inv empty_index.
Proof.
  intros id t. unfold postings. simpl. rewrite lookup_empty. simpl.
  split; [intros H; by apply not_elem_of_nil in H|intros [? [? _]]; discriminate].
Qed.

(** ** Candidate narrowing *)

Lemma narrow_loop_some inv ts c0 :
  exists c, narrow_loop inv ts (Some c0) = Some c /\
    (forall id, id ∈ c <-> id ∈ c0 /\ forall t, t ∈ ts -> id ∈ postings inv t).
Proof.
  revert c0. induction ts as [|t ts IH]; intros c0; simpl.
  - exists c0. split; [done|]. intros id. split; [|tauto].
    intros H. split; [done|]. intros t Ht. by apply not_elem_of_nil in Ht.
  - destruct (inv !! t) as [set|] eqn:Et.
    + set (c' := filter (fun id => set_has set id) c0).
      assert (Hc' : forall id, id ∈ c' <-> id ∈ c0 /\ id ∈ set).
      { intros id. unfold c', set_has. rewrite list_elem_of_filter.
        rewrite bool_decide_spec. tauto. }
      destruct (length c' =? 0)%nat eqn:El.
      * exists c'. split; [done|]. intros id.
        apply Nat.eqb_eq, nil_length_inv in El. split.
        -- intros H. rewrite El in H. by apply not_elem_of_nil in H.
        -- intros [H0 Hall]. apply Hc'. split; [done|].
           specialize (Hall t (list_elem_of_here _ _)). unfold postings in Hall. by rewrite Et in Hall.
      * destruct (IH c') as [c [Hc Hmem]]. exists c. split; [done|]. intros id.
        rewrite Hmem, Hc'.
        assert (Hp : postings inv t = set) by (unfold postings; by rewrite Et).
        split.
        -- intros [[H0 Hs] Hall]. split; [done|]. intros t' Ht'.
           apply elem_of_cons in Ht' as [->|Ht']; [by rewrite Hp|]. auto.
        -- intros [H0 Hall]. split; [split; [done|]|].
           ++ rewrite <- Hp. apply Hall, list_elem_of_here.
           ++ intros t' Ht'. apply Hall. by apply elem_of_cons; right.
    + exists []. split; [done|]. intros id. split.
      * intros H. by apply not_elem_of_nil in H.
      * intros [_ Hall]. specialize (Hall t (list_elem_of_here _ _)).
        unfold postings in Hall. rewrite Et in Hall. by apply not_elem_of_nil in Hall.
Qed.

Lemma narrow_members inv ts :
  ts <> [] ->
  exists c, narrow inv ts = Some c /\
    (forall id, id ∈ c <-> forall t, t ∈ ts -> id ∈ postings inv t).
Proof.
  intros Hne. destruct ts as [|t ts]; [done|]. unfold narrow. simpl.
  destruct (inv !! t) as [set|] eqn:Et.
  - assert (Hp : postings inv t = set) by (unfold postings; by rewrite Et).
    destruct (length set =? 0)%nat eqn:El.
    + exists set. split; [done|]. apply Nat.eqb_eq, nil_length_inv in El.
      intros id. split; [intros H; rewrite El in H; by apply not_elem_of_nil in H|].
      intros Hall. rewrite <- Hp. apply Hall, list_elem_of_here.
    + destruct (narrow_loop_some inv ts set) as [c [Hc Hmem]].
      exists c. split; [done|]. intros id. rewrite Hmem. split.
      * intros [H0 Hall] t' Ht'. apply elem_of_cons in Ht' as [->|Ht']; [by rewrite Hp|auto].
      * intros Hall. split; [rewrite <- Hp; apply Hall, list_elem_of_here|].
        intros t' Ht'. apply Hall. by apply elem_of_cons; right.
  - exists []. split; [done|]. intros id. split; [intros H; by apply not_elem_of_nil in H|].
    intros Hall. specialize (Hall t (list_elem_of_here _ _)).
    unfold postings in Hall. rewrite Et in Hall. by apply not_elem_of_nil in Hall.
Qed.



Lemma map_has_true {V} (m : list (string * V)) k : map_has m k = true -> k ∈ map fst m.
Proof.
  unfold map_has. destruct (map_get m k) eqn:E; [|discriminate].
  intros _. eapply In_key, map_get_Some, E.
Qed.

Lemma tier1_fold_has phrase (allDocs : list (string * Doc)) acc id d idx :
  In (id, d) allDocs -> indexOf (toLowerCase (d_content d)) phrase = Some idx ->
  id ∈ map fst (foldl (tier1_hit phrase) acc allDocs).
Proof.
  assert (Hstep : forall m e k, k ∈ map fst m -> k ∈ map fst (tier1_hit phrase m e)).
  { intros m [k' d'] k Hk. unfold tier1_hit. destruct (map_has m k'); [done|].
    destruct (indexOf _ _); [|done]. apply keys_map_set_elem. auto. }
  assert (Hmono : forall l acc k, k ∈ map fst acc -> k ∈ map fst (foldl (tier1_hit phrase) acc l)).
  { induction l as [|e l IH]; intros acc' k Hk; simpl; [done|]. apply IH, Hstep, Hk. }
  revert acc. induction allDocs as [|[k' d'] l IH]; intros acc Hin Hidx; simpl in *; [done|].
  destruct Hin as [[= -> ->]|Hin]; [|auto].
  apply Hmono. unfold tier1_hit. destruct (map_has acc id) eqn:Eh; [by apply map_has_true|].
  rewrite Hidx. apply keys_map_set_elem. auto.
Qed.

Section PunctuationQuery.
Variable localeCompare : string -> string -> Z.
Variable small_fuse_search : list Doc -> string -> nat -> list (Doc * option Q).
Variable global_fuse_search : list Doc -> string -> nat -> list (Doc * option Q).
Variable AIU : string -> string -> string.




End PunctuationQuery.

(** ** The indexing run *)

(** The filenames the live tasks have shifted and are fetching. *)
Fixpoint claimed (ts : list task) : list string :=
  match ts with
  | [] => []
  | Claimed f _ :: ts' => f :: claimed ts'
  | Scheduled :: ts' => claimed ts'
  end.

Lemma claimed_app (l1 l2 : list task) : claimed (l1 ++ l2)%list = (claimed l1 ++ claimed l2)%list.
Proof. induction l1 as [|[|f u] l1 IH]; simpl; f_equal; auto. Qed.

Lemma claimed_finish (ts : list task) i f u x :
  ts !! i = Some (Claimed f u) ->
  claimed ts ≡ₚ f :: claimed (<[i := x]> ts) \/ x <> Scheduled.
Proof.
  intros Hi. destruct x as [|]; [left|right; discriminate].
  pose proof (take_drop_middle ts i _ Hi) as Hts.
  assert (Hlt : (i < length ts)%nat) by (apply lookup_lt_is_Some; eauto).
  rewrite insert_take_drop by done.
  rewrite <- Hts at 1. rewrite !claimed_app. simpl.
  first [apply Permutation_middle | symmetry; apply Permutation_middle].
Qed.

Lemma claimed_finish_insert (ts : list task) i f u :
  ts !! i = Some (Claimed f u) -> claimed ts ≡ₚ f :: claimed (<[i := Scheduled]> ts).
Proof. intros Hi. destruct (claimed_finish ts i f u Scheduled Hi); [done|congruence]. Qed.

Lemma claimed_finish_delete (ts : list task) i f u :
  ts !! i = Some (Claimed f u) -> claimed ts ≡ₚ f :: claimed (delete i ts).
Proof.
  intros Hi. pose proof (take_drop_middle ts i _ Hi) as Hts.
  rewrite delete_take_drop. rewrite <- Hts at 1. rewrite !claimed_app. simpl.
  first [apply Permutation_middle | symmetry; apply Permutation_middle].
Qed.

Lemma claimed_start_insert (ts : list task) i f u :
  ts !! i = Some Scheduled -> claimed (<[i := Claimed f u]> ts) ≡ₚ f :: claimed ts.
Proof.
  intros Hi. pose proof (take_drop_middle ts i _ Hi) as Hts.
  assert (Hlt : (i < length ts)%nat) by (apply lookup_lt_is_Some; eauto).
  rewrite insert_take_drop by done.
  rewrite <- Hts at 3. rewrite !claimed_app. simpl.
  first [apply Permutation_middle | symmetry; apply Permutation_middle].
Qed.

Lemma claimed_start_delete (ts : list task) i :
  ts !! i = Some Scheduled -> claimed (delete i ts) = claimed ts.
Proof.
  intros Hi. pose proof (take_drop_middle ts i _ Hi) as Hts.
  rewrite delete_take_drop. rewrite <- Hts at 3. rewrite !claimed_app. done.
Qed.

Lemma map_get_None_of {V} (m : list (string * V)) k : k ∉ map fst m -> map_get m k = None.
Proof.
  induction m as [|[k' v'] m IH]; simpl; [done|].
  rewrite elem_of_cons. intros Hk.
  destruct (String.eqb_spec k k'); [exfalso; auto|auto].
Qed.

(** What the worker phase maintains. *)
Definition doc_entry_ok (e : string * Doc) : Prop :=
  let '(k, d) := e in
  d_id d = k /\ d_title d = strip_txt k.

Record workers_inv (s : St) : Prop := {
  wi_progress : st_progress s = (st_done s, length (st_manifest s));
  wi_count : (st_done s + length (claimed (st_tasks s)) + length (st_queue s)
              = length (st_manifest s))%nat;
  wi_urls : (length (st_queue s) + length (st_urls s)
             = length (st_urlqueue s) + length (st_manifest s))%nat;
  wi_live : st_queue s <> [] -> st_urlqueue s <> [] -> st_tasks s <> [];
  wi_entries : Forall doc_entry_ok (docs (st_index s));
  wi_table : NoDup (st_manifest s) ->
    (map fst (docs (st_index s)) ++ claimed (st_tasks s) ++ st_queue s)%list ≡ₚ st_manifest s
    /\ index_inv (st_index s)
}.

Definition run_inv (s : St) : Prop :=
  match st_phase s with
  | PInit => s = init
  | PAwaitManifest =>
      st_status s = Indexing /\ st_progress s = (0, 0)%nat /\ st_index s = empty_index
      /\ st_manifest s = [] /\ st_done s = 0%nat
  | PAwaitUrls =>
      st_status s = Indexing /\ st_progress s = (0, length (st_manifest s))%nat
      /\ st_index s = empty_index /\ st_done s = 0%nat
  | PWorkers => st_status s = Indexing /\ workers_inv s
  | PDone =>
      (st_status s = Error /\ fst (st_progress s) = 0%nat /\ st_index s = empty_index)
      \/ (st_status s = Ready /\ workers_inv s /\ st_tasks s = [])
  end.

Lemma workers_inv_start s i :
  workers_inv s -> st_tasks s !! i = Some Scheduled -> workers_inv (start_task s i).
Proof.
  intros [Hp Hc Hu Hl He Ht] Hi. unfold start_task.
  destruct (st_queue s) as [|f q'] eqn:Eq; [|destruct (st_urlqueue s) as [|u uq'] eqn:Eu].
  - constructor; simpl; try done;
      rewrite ?claimed_start_delete by done; done.
  - constructor; simpl; try done;
      rewrite ?claimed_start_delete by done; done.
  - pose proof (claimed_start_insert (st_tasks s) i f u Hi) as Hperm.
    pose proof (Permutation_length Hperm) as Hlen. simpl in Hlen.
    constructor; simpl; try done.
    + rewrite Hlen. simpl in Hc. lia.
    + simpl in Hu. lia.
    + intros _ _. intros Hnil. apply (f_equal length) in Hnil.
      rewrite length_insert in Hnil. simpl in Hnil.
      apply lookup_lt_Some in Hi. lia.
    + intros Hnd. destruct (Ht Hnd) as [Hp' Hinv]. split; [|done].
      rewrite Hperm. rewrite <- Hp'.
      apply Permutation_app_head. simpl.
      first [apply Permutation_middle | symmetry; apply Permutation_middle].
Qed.

Lemma workers_inv_finish s i f u fetch :
  workers_inv s -> st_tasks s !! i = Some (Claimed f u) ->
  workers_inv (finish_task s i f u fetch).
Proof.
  intros [Hp Hc Hu Hl He Ht] Hi. unfold finish_task.
  set (d := mkDoc f (strip_txt f) (snd (fetch_document fetch f)) u).
  assert (Hperm : claimed (st_tasks s) ≡ₚ
            f :: claimed (match st_queue s with
                          | [] => delete i (st_tasks s)
                          | _ :: _ => <[i:=Scheduled]> (st_tasks s) end)).
  { destruct (st_queue s).
    - eapply claimed_finish_delete; eauto.
    - eapply claimed_finish_insert; eauto. }
  pose proof (Permutation_length Hperm) as Hlen. simpl in Hlen.
  constructor; simpl; try done.
  - lia.
  - intros Hq _. destruct (st_queue s) as [|q0 q'] eqn:Eq; [done|].
    intros Hnil. apply (f_equal length) in Hnil.
    rewrite length_insert in Hnil. simpl in Hnil.
    apply lookup_lt_Some in Hi. lia.
  - apply List.Forall_forall. intros x Hx. apply In_map_set in Hx as [->|Hx].
    + simpl. split; done.
    + rewrite List.Forall_forall in He. by apply He.
  - intros Hnd. destruct (Ht Hnd) as [Hp' Hinv].
    assert (Hf : f ∉ map fst (docs (st_index s))).
    { intros Hf. rewrite <- Hp' in Hnd.
      apply NoDup_app in Hnd as [_ [Hdis _]].
      apply (Hdis f Hf). apply elem_of_app. left.
      rewrite Hperm. apply list_elem_of_here. }
    split.
    + rewrite keys_map_set. simpl. rewrite bool_decide_false by done.
      rewrite <- Hp', Hperm, <- app_assoc. done.
    + apply indexDoc_index_inv; [done|]. simpl. by apply map_get_None_of.
Qed.

Lemma claimed_replicate n : claimed (replicate n Scheduled) = [].
Proof. induction n; simpl; auto. Qed.

Lemma start_task_fields s i :
  st_status (start_task s i) = st_status s /\ st_phase (start_task s i) = st_phase s.
Proof. unfold start_task. destruct (st_queue s), (st_urlqueue s); auto. Qed.

Lemma concurrency_pos hc : (2 <= concurrency hc)%nat.
Proof. unfold concurrency. lia. Qed.

Lemma run_inv_init : run_inv init.
Proof. done. Qed.

Lemma exec_run_inv e s s' : run_inv s -> exec e s = Some s' -> run_inv s'.
Proof.
  unfold run_inv. intros H Hx. unfold exec in Hx.
  destruct (st_phase s) eqn:Ep.
  - subst s. destruct e as [|[]|[]| | |]; try discriminate. injection Hx as <-. simpl. repeat split.
  - destruct H as (Hs & Hp & Hix & Hm & Hd).
    destruct e as [|[m|]|[urls|] hc| | |]; try discriminate; injection Hx as <-; simpl.
    + repeat split; done.
    + left. rewrite Hp. done.
  - destruct H as (Hs & Hp & Hix & Hd).
    destruct e as [|[m|]|[urls|] hc| | |]; try discriminate; injection Hx as <-; simpl.
    + split; [done|]. constructor; simpl.
      * rewrite Hp. done.
      * rewrite claimed_replicate. simpl. lia.
      * lia.
      * intros _ _ Hnil. apply (f_equal length) in Hnil.
        rewrite length_replicate in Hnil. pose proof (concurrency_pos hc). simpl in Hnil. lia.
      * rewrite Hix. constructor.
      * intros _. rewrite Hix, claimed_replicate. split; [done|apply empty_index_inv].
    + left. rewrite Hp. done.
  - destruct H as [Hs Hw].
    destruct e as [|[]|[]| i| i fetch|]; try discriminate.
    + destruct (st_tasks s !! i) as [[|f u]|] eqn:Ei; try discriminate.
      injection Hx as <-. destruct (start_task_fields s i) as [-> ->]. rewrite Ep.
      split; [done|]. by apply workers_inv_start.
    + destruct (st_tasks s !! i) as [[|f u]|] eqn:Ei; try discriminate.
      injection Hx as <-. simpl. rewrite Ep.
      split; [done|]. by eapply workers_inv_finish.
    + destruct (st_tasks s) eqn:Et; try discriminate.
      injection Hx as <-. simpl. right. split; [done|]. split; [|done].
      destruct Hw; constructor; done.
  - destruct e as [|[]|[] | | |]; discriminate.
Qed.

Lemma run_run_inv es s s' : run_inv s -> run es s = Some s' -> run_inv s'.
Proof.
  revert s. induction es as [|e es IH]; simpl; intros s Hs Hr.
  - congruence.
  - destruct (exec e s) as [s1|] eqn:E; [|discriminate].
    apply (IH s1); [eapply exec_run_inv; eauto|done].
Qed.

Lemma reachable_run_inv s : reachable s -> run_inv s.
Proof. intros [es Hr]. eapply run_run_inv; [apply run_inv_init|exact Hr]. Qed.

Lemma reachable_step s s' : reachable s -> step s s' -> reachable s'.
Proof.
  intros [es Hr] [e He]. exists (es ++ [e])%list.
  revert Hr. generalize init. induction es as [|e0 es IH]; simpl; intros s0 Hr.
  - injection Hr as ->. rewrite He. done.
  - destruct (exec e0 s0); [by apply IH|discriminate].
Qed.


Lemma run_inv_progress_le s : run_inv s -> (fst (st_progress s) <= snd (st_progress s))%nat.
Proof.
  unfold run_inv. intros H. destruct (st_phase s).
  - subst s. simpl. lia.
  - destruct H as (_ & -> & _). simpl. lia.
  - destruct H as (_ & -> & _). simpl. lia.
  - destruct H as [_ [Hp Hc _ _ _ _]]. rewrite Hp. simpl. lia.
  - destruct H as [[_ [-> _]]|[_ [[Hp Hc _ _ _ _] _]]]; [lia|]. rewrite Hp. simpl. lia.
Qed.

Lemma exec_progress_mono e s s' :
  run_inv s -> exec e s = Some s' -> (fst (st_progress s) <= fst (st_progress s'))%nat.
Proof.
  unfold run_inv. intros H Hx. unfold exec in Hx.
  destruct (st_phase s) eqn:Ep.
  - destruct e as [|[]|[]| | |]; try discriminate. injection Hx as <-. done.
  - destruct H as (_ & Hp & _).
    destruct e as [|[m|]|[urls|] hc| | |]; try discriminate; injection Hx as <-; simpl; [|done].
    rewrite Hp. simpl. lia.
  - destruct e as [|[m|]|[urls|] hc| | |]; try discriminate; injection Hx as <-; simpl; done.
  - destruct H as [_ [Hp _ _ _ _ _]].
    destruct e as [|[]|[]| i| i fetch|]; try discriminate.
    + destruct (st_tasks s !! i) as [[|f u]|]; try discriminate.
      injection Hx as <-. unfold start_task. destruct (st_queue s), (st_urlqueue s); done.
    + destruct (st_tasks s !! i) as [[|f u]|]; try discriminate.
      injection Hx as <-. simpl. rewrite Hp. simpl. lia.
    + destruct (st_tasks s); try discriminate. injection Hx as <-. done.
  - destruct e as [|[]|[] | | |]; discriminate.
Qed.

(** Once the queue is drained and no task is fetching, the remaining
    scheduled calls resolve and [Promise.all] fires. *)
Lemma drain_to_ready n s :
  length (st_tasks s) = n -> st_phase s = PWorkers -> st_queue s = [] ->
  claimed (st_tasks s) = [] ->
  exists es s', run es s = Some s' /\ st_status s' = Ready.
Proof.
  revert s. induction n as [|n IH]; intros s Hn Hp Hq Hc.
  - destruct (st_tasks s) eqn:Et; [|discriminate].
    exists [EReady], (with_status s Ready PDone). simpl. unfold exec.
    rewrite Hp, Et. done.
  - destruct (st_tasks s) as [|[|f u] ts] eqn:Et; [discriminate| |discriminate].
    destruct (IH (start_task s 0)) as (es & s' & Hr & Hs).
    + unfold start_task. rewrite Hq, Et. simpl in *. lia.
    + by destruct (start_task_fields s 0) as [_ ->].
    + unfold start_task. rewrite Hq. done.
    + unfold start_task. rewrite Hq, Et. done.
    + exists (EStart 0 :: es), s'. simpl. unfold exec. rewrite Hp, Et. simpl. done.
Qed.

Lemma run_from_workers es s s' :
  (st_phase s = PWorkers /\ st_status s = Indexing \/ st_phase s = PDone) ->
  (st_status s = Indexing \/ st_status s = Ready) ->
  run es s = Some s' -> st_status s' = Indexing \/ st_status s' = Ready.
Proof.
  revert s. induction es as [|e es IH]; simpl; intros s Hp Hs Hr.
  - injection Hr as <-. done.
  - destruct (exec e s) as [s1|] eqn:E; [|discriminate].
    unfold exec in E. destruct Hp as [[Hp Hi]|Hp]; rewrite Hp in E.
    + destruct e as [|[]|[]| i| i fetch|]; try discriminate.
      * destruct (st_tasks s !! i) as [[|f u]|]; try discriminate. injection E as <-.
        destruct (start_task_fields s i) as [H1 H2].
        refine (IH _ _ _ Hr); [left; rewrite H1, H2; auto|rewrite H1; auto].
      * destruct (st_tasks s !! i) as [[|f u]|]; try discriminate. injection E as <-.
        refine (IH _ _ _ Hr); [left; simpl; auto|simpl; auto].
      * destruct (st_tasks s); try discriminate. injection E as <-.
        refine (IH _ _ _ Hr); right; done.
    + destruct e as [|[]|[] | | |]; discriminate.
Qed.

Lemma doc_tokens_elem d t :
  t ∈ doc_tokens d <-> t ∈ tokenize (d_title d) \/ t ∈ tokenize (d_content d).
Proof. unfold doc_tokens. rewrite elem_of_remove_dups, elem_of_app. done. Qed.

Lemma exec_postings_mono e s s' t x :
  exec e s = Some s' ->
  x ∈ postings (inverted (st_index s)) t -> x ∈ postings (inverted (st_index s')) t.
Proof.
  intros Hx Hin. unfold exec in Hx.
  destruct e as [|[m|]|[urls|] hc|i|i fetch|], (st_phase s); try discriminate;
    try (injection Hx as <-; exact Hin).
  - destruct (st_tasks s !! i) as [[|f u]|]; try discriminate. injection Hx as <-.
    unfold start_task. destruct (st_queue s), (st_urlqueue s); exact Hin.
  - destruct (st_tasks s !! i) as [[|f u]|]; try discriminate. injection Hx as <-.
    simpl. apply postings_foldl. auto.
  - destruct (st_tasks s); try discriminate. injection Hx as <-. exact Hin.
Qed.

Lemma run_inv_index s :
  run_inv s -> NoDup (st_manifest s) -> index_inv (st_index s).
Proof.
  unfold run_inv. intros H Hnd. destruct (st_phase s).
  - subst s. apply empty_index_inv.
  - destruct H as (_ & _ & -> & _). apply empty_index_inv.
  - destruct H as (_ & _ & -> & _). apply empty_index_inv.
  - destruct H as [_ Hw]. apply (wi_table _ Hw Hnd).
  - destruct H as [(_ & _ & ->)|[_ [Hw _]]]; [apply empty_index_inv|].
    apply (wi_table _ Hw Hnd).
Qed.

(** C7 (amended): for a non-empty token list the narrowing step yields
    exactly the intersection of the tokens' posting sets, and a token
    without postings makes it empty. Over an index with the posting
    invariant, and so in every reachable state of a run whose manifest
    lists distinct identifiers, it is the set of indexed documents that
    contain every token. *)
Theorem narrow_is_intersection (ix : Index) (ts : list string) :
  ts <> [] ->
  exists c, narrow (inverted ix) ts = Some c
    /\ (forall id, id ∈ c <-> forall t, t ∈ ts -> id ∈ postings (inverted ix) t)
    /\ ((exists t, t ∈ ts /\ inverted ix !! t = None) -> c = [])
    /\ (index_inv ix -> forall id, id ∈ c <->
          exists d, map_get (docs ix) id = Some d /\ forall t, t ∈ ts -> t ∈ doc_tokens d)
    /\ (forall s, reachable s -> st_index s = ix -> NoDup (st_manifest s) ->
          forall id, id ∈ c <->
          exists d, map_get (docs ix) id = Some d /\ forall t, t ∈ ts -> t ∈ doc_tokens d).
Proof.
  intros Hne. destruct (narrow_members (inverted ix) ts Hne) as [c [Hc Hmem]].
  assert (Hexact : index_inv ix -> forall id, id ∈ c <->
            exists d, map_get (docs ix) id = Some d /\ forall t, t ∈ ts -> t ∈ doc_tokens d).
  { intros Hinv id. rewrite Hmem. split.
    + intros Hall. destruct ts as [|t0 ts]; [done|].
      destruct (proj1 (Hinv id t0) (Hall t0 (list_elem_of_here _ _))) as [d [Hd _]].
      exists d. split; [done|]. intros t Ht.
      destruct (proj1 (Hinv id t) (Hall t Ht)) as [d' [Hd' Htok]].
      rewrite Hd in Hd'. by injection Hd' as <-.
    + intros [d [Hd Hall]] t Ht. apply Hinv. eauto. }
  exists c. split; [done|]. split; [done|]. split; [|split; [exact Hexact|]].
  - intros [t [Ht Hnone]]. destruct c as [|id c]; [done|exfalso].
    pose proof (proj1 (Hmem id) (list_elem_of_here _ _) t Ht) as H.
    unfold postings in H. rewrite Hnone in H. by apply not_elem_of_nil in H.
  - intros s Hr Hix Hnd. apply Hexact. rewrite <- Hix.
    exact (run_inv_index s (reachable_run_inv s Hr) Hnd).
Qed.






(** Example runs. *)
Definition fetch_fail : string -> fetch_result := fun _ => NotOk.
Definition fetch_ok_x : string -> fetch_result := fun _ => Ok "x".

Definition scenario_state (es : list event) : St := default init (run es init).


(** A manifest listing the same identifier twice; the first fetch
    succeeds, the second fails. *)
Definition es_dup : list event :=
  [EBegin; EManifest (Some ["a.txt"; "a.txt"]); EUrls (Some ["u1"; "u2"]) 2;
   EStart 0; EStart 1; EFinish 0 fetch_ok_x; EFinish 0 fetch_fail; EReady].

(** Two distinct documents, one fetched and one failing, before and after
    [Promise.all] resolves. *)
Definition es_good_workers : list event :=
  [EBegin; EManifest (Some ["Mars Soil.txt"; "b.txt"]); EUrls (Some ["u1"; "u2"]) 2;
   EStart 0; EStart 1; EFinish 0 fetch_ok_x; EFinish 0 fetch_fail].

Definition es_good : list event := (es_good_workers ++ [EReady])%list.

(** The manifest request fails. *)
Definition es_err : list event := [EBegin; EManifest None].

Lemma reachable_scenario es s : run es init = Some s -> reachable s.
Proof. intros H. exists es. exact H. Qed.






(** C6 (amended): in every reachable state of a run whose manifest lists
    distinct identifiers, an identifier is in the posting set of a token
    exactly when the table holds a document under that identifier whose
    title or content tokenizes to that token; and, whatever the manifest,
    no step of the run ever removes an identifier from a posting set. *)
Theorem inverted_index_invariant (s : St) :
  reachable s ->
  (NoDup (st_manifest s) ->
   forall id t, id ∈ postings (inverted (st_index s)) t <->
     exists d, map_get (docs (st_index s)) id = Some d
       /\ (t ∈ tokenize (d_title d) \/ t ∈ tokenize (d_content d)))
  /\ (forall s' t x, step s s' ->
        x ∈ postings (inverted (st_index s)) t -> x ∈ postings (inverted (st_index s')) t).
Proof.
  intros Hr. split.
  - intros Hnd id t. rewrite (run_inv_index s (reachable_run_inv s Hr) Hnd id t).
    split; intros [d [Hd Ht]]; exists d; split; try done; by apply doc_tokens_elem.
  - intros s' t x [e He]. exact (exec_postings_mono e s s' t x He).
Qed.

(** C6 counterexample: with an identifier listed twice, the second
    (failed) fetch replaces the document, but the token ["x"] of the
    first fetch keeps the identifier in its posting set. *)
Lemma inverted_index_stale_duplicate :
  let s := scenario_state es_dup in
  reachable s
  /\ "a.txt" ∈ postings (inverted (st_index s)) "x"
  /\ (forall d, map_get (docs (st_index s)) "a.txt" = Some d ->
        ~ ("x" ∈ tokenize (d_title d) \/ "x" ∈ tokenize (d_content d))).
Proof.
  intros s. split; [apply (reachable_scenario es_dup); vm_compute; reflexivity|]. split.
  - assert (Hb : bool_decide ("a.txt" ∈ postings (inverted (st_index s)) "x") = true)
      by (vm_compute; reflexivity).
    by apply bool_decide_eq_true in Hb.
  - intros d Hd. vm_compute in Hd. injection Hd as <-.
    rewrite <- doc_tokens_elem.
    assert (Hb : bool_decide ("x" ∈ doc_tokens (mkDoc "a.txt" "a" "" "u2")) = false)
      by (vm_compute; reflexivity).
    by apply bool_decide_eq_false in Hb.
Qed.

(** C7 counterexample: with an identifier listed twice, narrowing on
    ["x"] keeps [a.txt], whose stored document (the failed second fetch)
    does not contain ["x"]. *)
Lemma narrow_stale_candidate :
  let s := scenario_state es_dup in
  reachable s
  /\ narrow (inverted (st_index s)) ["x"] = Some ["a.txt"]
  /\ map_get (docs (st_index s)) "a.txt" = Some (mkDoc "a.txt" "a" "" "u2")
  /\ "x" ∉ doc_tokens (mkDoc "a.txt" "a" "" "u2").
Proof.
  intros s. split; [apply (reachable_scenario es_dup); vm_compute; reflexivity|].
  split; [vm_compute; reflexivity|]. split; [vm_compute; reflexivity|].
  assert (Hb : bool_decide ("x" ∈ doc_tokens (mkDoc "a.txt" "a" "" "u2")) = false)
    by (vm_compute; reflexivity).
  by apply bool_decide_eq_false in Hb.
Qed.

Lemma inverted_index_invariant_witness :
  let s := scenario_state es_good in
  (reachable s /\ NoDup (st_manifest s))
  /\ ((NoDup (st_manifest s) ->
       forall id t, id ∈ postings (inverted (st_index s)) t <->
        exists d, map_get (docs (st_index s)) id = Some d
          /\ (t ∈ tokenize (d_title d) \/ t ∈ tokenize (d_content d)))
      /\ (forall s' t x, step s s' ->
           x ∈ postings (inverted (st_index s)) t -> x ∈ postings (inverted (st_index s')) t)).
Proof.
  intros s.
  assert (Hr : reachable s) by (apply (reachable_scenario es_good); vm_compute; reflexivity).
  assert (Hnd : NoDup (st_manifest s)) by (vm_compute; repeat constructor; set_solver).
  split; [split; assumption|].
  exact (inverted_index_invariant s Hr).
Defined.

(** C9 (amended): in every reachable state the progress counter [done]
    is at most [total] and no step decreases it; once the worker phase has
    begun, [done = total] means the queue is drained and no fetch is in
    flight, some continuation of the run reaches [ready], and no
    continuation ever reaches [error]. *)
Theorem progress_counter_law (s : St) :
  reachable s ->
  (fst (st_progress s) <= snd (st_progress s))%nat
  /\ (forall s', step s s' -> (fst (st_progress s) <= fst (st_progress s'))%nat)
  /\ (st_phase s = PWorkers -> fst (st_progress s) = snd (st_progress s) ->
      st_queue s = [] /\ claimed (st_tasks s) = []
      /\ (exists es s', run es s = Some s' /\ st_status s' = Ready)
      /\ (forall es s', run es s = Some s' ->
            st_status s' = Indexing \/ st_status s' = Ready)).
Proof.
  intros Hr. pose proof (reachable_run_inv s Hr) as Hinv.
  split; [by apply run_inv_progress_le|]. split.
  { intros s' [e He]. by apply (exec_progress_mono e s s'). }
  intros Hp Heq. unfold run_inv in Hinv. rewrite Hp in Hinv.
  destruct Hinv as [Hs Hw].
  destruct Hw as [Hpr Hc Hu Hl He Ht]. rewrite Hpr in Heq. simpl in Heq.
  assert (Hq : st_queue s = []) by (destruct (st_queue s); [done|simpl in Hc; lia]).
  assert (Hcl : claimed (st_tasks s) = [])
    by (destruct (claimed (st_tasks s)); [done|simpl in Hc; lia]).
  split; [done|]. split; [done|]. split.
  - by apply (drain_to_ready (length (st_tasks s))).
  - intros es s' Hrun. apply (run_from_workers es s s'); auto.
Qed.

(** C9 counterexample: when the manifest request fails, [done = total = 0]
    holds in an [error] state from which no event leads anywhere. *)
Lemma progress_full_in_error_state :
  let s := scenario_state es_err in
  reachable s /\ fst (st_progress s) = snd (st_progress s)
  /\ st_status s = Error /\ (forall e, exec e s = None).
Proof.
  intros s. split; [apply (reachable_scenario es_err); vm_compute; reflexivity|].
  split; [vm_compute; reflexivity|]. split; [vm_compute; reflexivity|].
  intros e. destruct e as [|[]|[]| | |]; vm_compute; reflexivity.
Qed.

Lemma progress_counter_law_witness :
  let s := scenario_state es_good_workers in
  (reachable s /\ st_phase s = PWorkers /\ fst (st_progress s) = snd (st_progress s))
  /\ ((fst (st_progress s) <= snd (st_progress s))%nat
      /\ (forall s', step s s' -> (fst (st_progress s) <= fst (st_progress s'))%nat)
      /\ (st_phase s = PWorkers -> fst (st_progress s) = snd (st_progress s) ->
          st_queue s = [] /\ claimed (st_tasks s) = []
          /\ (exists es s', run es s = Some s' /\ st_status s' = Ready)
          /\ (forall es s', run es s = Some s' ->
                st_status s' = Indexing \/ st_status s' = Ready))).
Proof.
  intros s.
  assert (Hr : reachable s)
    by (apply (reachable_scenario es_good_workers); vm_compute; reflexivity).
  split; [split; [exact Hr|split; vm_compute; reflexivity]|].
  exact (progress_counter_law s Hr).
Defined.

(** ** Concrete instances for the query engine *)

(** A comparator by length, antisymmetric in sign like [localeCompare]. *)
Definition lc_ex (a b : string) : Z := (Z.of_nat (String.length a) - Z.of_nat (String.length b))%Z.

(** A search that returns every document it is given with score 0.2. *)
Definition fuse_ex (l : list Doc) (q : string) (n : nat) : list (Doc * option Q) :=
  map (fun d => (d, Some (1 # 5)%Q)) l.

Definition aiu_ex (system prompt : string) : string := "summary".

Definition doc_ex1 : Doc := mkDoc "Mars Soil.txt" "Mars Soil" "red dust" "u1".
Definition doc_ex2 : Doc :=
  mkDoc "mars-dust-properties.txt" "mars-dust-properties" "fine grains" "u2".
Definition doc_ex3 : Doc := mkDoc "dust soil notes.txt" "dust soil notes" "regolith !!!" "u3".

Definition ix_ex : Index := indexDoc (indexDoc (indexDoc empty_index doc_ex1) doc_ex2) doc_ex3.

(** The title order of [localeCompare] in the default locales on
    printable ASCII, after the root collation of CLDR (the Unicode
    Collation Algorithm with non-ignorable punctuation, as ICU applies it
    to [String.prototype.localeCompare] without options). Strings compare
    first by primary weights: the space, then punctuation and symbols in
    this order, then digits, then letters, where the lowercase and
    uppercase forms of a letter weigh the same. Strings equal at that level
    compare by case, lowercase first. Characters outside printable ASCII
    are not modelled and weigh after the letters. *)
Definition root_primary_order : list ascii :=
  list_ascii_of_string (" _-,;:!?.'" ++ String dquote
    "()[]{}@*/\&#%`^+<=>|~$0123456789abcdefghijklmnopqrstuvwxyz").

Fixpoint index_in (c : ascii) (l : list ascii) : option nat :=
  match l with
  | [] => None
  | x :: l' => if Ascii.eqb x c then Some 0%nat else option_map S (index_in c l')
  end.

Definition root_primary (c : ascii) : nat :=
  match index_in (lower_char c) root_primary_order with
  | Some i => i
  | None => (length root_primary_order + ascii_code c)%nat
  end.

Definition case_weight (c : ascii) : nat :=
  let n := ascii_code c in if (65 <=? n)%nat && (n <=? 90)%nat then 1%nat else 0%nat.

Fixpoint lex_cmp (l1 l2 : list nat) : Z :=
  match l1, l2 with
  | [], [] => 0%Z
  | [], _ :: _ => (-1)%Z
  | _ :: _, [] => 1%Z
  | a :: l1', b :: l2' =>
      if (a <? b)%nat then (-1)%Z else if (b <? a)%nat then 1%Z else lex_cmp l1' l2'
  end.

Definition root_compare (a b : string) : Z :=
  let la := list_ascii_of_string a in
  let lb := list_ascii_of_string b in
  match lex_cmp (map root_primary la) (map root_primary lb) with
  | 0%Z => lex_cmp (map case_weight la) (map case_weight lb)
  | c => c
  end.

(** The title order the claim names: case-insensitive lexicographic order,
    the lowercased titles compared character by character by code. *)
Fixpoint ci_lex_le (a b : string) : bool :=
  match a, b with
  | EmptyString, _ => true
  | String _ _, EmptyString => false
  | String x a', String y b' =>
      let nx := ascii_code (lower_char x) in
      let ny := ascii_code (lower_char y) in
      (nx <? ny)%nat || ((nx =? ny)%nat && ci_lex_le a' b')
  end.

Lemma lex_cmp_antisym l1 l2 : lex_cmp l2 l1 = (- lex_cmp l1 l2)%Z.
Proof.
  revert l2. induction l1 as [|a l1 IH]; intros [|b l2]; simpl; try done.
  destruct (Nat.ltb_spec a b), (Nat.ltb_spec b a); try lia; auto.
Qed.

Lemma root_compare_antisym s t : Z.sgn (root_compare t s) = (- Z.sgn (root_compare s t))%Z.
Proof.
  unfold root_compare.
  rewrite (lex_cmp_antisym (map root_primary (list_ascii_of_string s))).
  destruct (lex_cmp (map root_primary (list_ascii_of_string s)) _) eqn:E; simpl.
  - rewrite lex_cmp_antisym. apply Z.sgn_opp.
  - done.
  - done.
Qed.

Definition doc_plain : Doc := mkDoc "x.txt" "x" "dust" "u1".
Definition doc_tilde : Doc := mkDoc "~x.txt" "~x" "dust" "u2".
Definition ix_tilde : Index := indexDoc (indexDoc empty_index doc_plain) doc_tilde.

Lemma lc_ex_antisym s t : Z.sgn (lc_ex t s) = (- Z.sgn (lc_ex s t))%Z.
Proof. unfold lc_ex. lia. Qed.

Lemma fuse_ex_nonneg l q' n d s : In (d, Some s) (fuse_ex l q' n) -> (0 <= s)%Q.
Proof.
  unfold fuse_ex. intros H. apply in_map_iff in H as [d' [E _]].
  injection E as _ <-. unfold Qle. simpl. lia.
Qed.

Lemma ix_ex_inv : index_inv ix_ex.
Proof.
  unfold ix_ex.
  repeat (apply indexDoc_index_inv; [|vm_compute; reflexivity]).
  apply empty_index_inv.
Qed.



(** C2 counterexample: under the root collation the title [~x] sorts
    before [x] (punctuation before letters), so two content hits of equal
    score and matches come out in an order that case-insensitive
    lexicographic order (where [x] precedes [~x]) forbids. *)
Lemma doSearch_title_order_not_ci :
  exists e1 e2,
    doSearch root_compare fuse_ex fuse_ex aiu_ex ix_tilde "dust" = Some [e1; e2]
    /\ r_score e1 = r_score e2 /\ r_matches e1 = r_matches e2
    /\ r_title e1 = "~x" /\ r_title e2 = "x"
    /\ ci_lex_le (r_title e1) (r_title e2) = false.
Proof.
  do 2 eexists. split; [vm_compute; reflexivity|].
  repeat split; vm_compute; reflexivity.
Qed.

Lemma doSearch_result_order_witness :
  let l := default [] (doSearch root_compare fuse_ex fuse_ex aiu_ex ix_tilde "dust") in
  ((forall s t, Z.sgn (root_compare t s) = (- Z.sgn (root_compare s t))%Z)
   /\ doSearch root_compare fuse_ex fuse_ex aiu_ex ix_tilde "dust" = Some l)
  /\ (forall i a b, l !! i = Some a -> l !! S i = Some b -> ordered_pair root_compare a b).
Proof.
  intros l.
  assert (H : doSearch root_compare fuse_ex fuse_ex aiu_ex ix_tilde "dust" = Some l)
    by (vm_compute; reflexivity).
  split; [split; [exact root_compare_antisym|exact H]|].
  exact (doSearch_result_order root_compare fuse_ex fuse_ex aiu_ex ix_tilde "dust" l
           root_compare_antisym H).
Defined.

Lemma tier2_score_below_exact_witness :
  let q := "dust soil" in
  ((forall l q' n d s, In (d, Some s) (fuse_ex l q' n) -> (0 <= s)%Q)
   /\ (forall l q' n d s, In (d, Some s) (fuse_ex l q' n) -> (0 <= s)%Q))
  /\ (let exact := map fst (exact_hits (docs ix_ex) (phrase_of q)) in
  let res := ranked lc_ex fuse_ex fuse_ex ix_ex q in
  (forall e, In e res -> r_id e ∉ exact ->
     exists d sc,
       In (d, sc) (fuzzyResults fuse_ex fuse_ex ix_ex q
                     (candidate_ids ix_ex q (exact_hits (docs ix_ex) (phrase_of q))))
       /\ d_id d = r_id e
       /\ r_score e = (js_round (default 1%Q sc * 100)%Q + 50)%Z
       /\ (50 <= r_score e)%Z)
  /\ (forall e, In e res -> r_id e ∈ exact -> r_score e = 0%Z \/ r_score e = 10%Z)
  /\ (forall i j e1 e2, res !! i = Some e1 -> res !! j = Some e2 ->
        r_id e1 ∈ exact -> r_id e2 ∉ exact -> (i < j)%nat)).
Proof.
  intros q. split; [split; exact fuse_ex_nonneg|].
  exact (tier2_score_below_exact lc_ex fuse_ex fuse_ex aiu_ex ix_ex q fuse_ex_nonneg fuse_ex_nonneg).
Defined.

Lemma narrow_is_intersection_witness :
  let ts := ["dust"; "soil"] in
  (ts <> [] /\ index_inv ix_ex)
  /\ (exists c, narrow (inverted ix_ex) ts = Some c
    /\ (forall id, id ∈ c <-> forall t, t ∈ ts -> id ∈ postings (inverted ix_ex) t)
    /\ ((exists t, t ∈ ts /\ inverted ix_ex !! t = None) -> c = [])
    /\ (index_inv ix_ex -> forall id, id ∈ c <->
          exists d, map_get (docs ix_ex) id = Some d /\ forall t, t ∈ ts -> t ∈ doc_tokens d)
    /\ (forall s, reachable s -> st_index s = ix_ex -> NoDup (st_manifest s) ->
          forall id, id ∈ c <->
          exists d, map_get (docs ix_ex) id = Some d /\ forall t, t ∈ ts -> t ∈ doc_tokens d)).
Proof.
  intros ts.
  assert (H : ts <> []) by discriminate.
  split; [split; [exact H|exact ix_ex_inv]|].
  exact (narrow_is_intersection ix_ex ts H).
Defined.

Lemma tier0_excerpt_is_title_witness :
  let q := "dust soil" in
  let id := "dust soil notes.txt" in
  (NoDup (map fst (docs ix_ex)) /\ In (id, doc_ex3) (docs ix_ex)
   /\ includes (toLowerCase (d_title doc_ex3)) (phrase_of q) = true)
  /\ (exists e,
    In e (ranked lc_ex fuse_ex fuse_ex ix_ex q)
    /\ r_id e = id /\ r_excerpt e = d_title doc_ex3 /\ r_title e = d_title doc_ex3
    /\ r_score e = 0%Z
    /\ (forall e', In e' (ranked lc_ex fuse_ex fuse_ex ix_ex q) -> r_id e' = id -> e' = e)).
Proof.
  intros q id.
  assert (H1 : NoDup (map fst (docs ix_ex))).
  { assert (Hb : bool_decide (NoDup (map fst (docs ix_ex))) = true) by (vm_compute; reflexivity).
    by apply bool_decide_eq_true in Hb. }
  assert (H2 : In (id, doc_ex3) (docs ix_ex)).
  { vm_compute. repeat first [left; reflexivity | right]. }
  assert (H3 : includes (toLowerCase (d_title doc_ex3)) (phrase_of q) = true)
    by (vm_compute; reflexivity).
  split; [split; [exact H1|split; [exact H2|exact H3]]|].
  exact (tier0_excerpt_is_title lc_ex fuse_ex fuse_ex ix_ex q id doc_ex3 H1 H2 H3).
Defined.

(* ------------------------------------------------------------------ *)
(** ** Further helpers of App.tsx: [escapeHtml], [tokenize] *)

(** One character of [escapeHtml]'s replacement callback. *)
Definition escape_char (c : ascii) : string :=
  if ascii_dec c "&" then "&amp;"
  else if ascii_dec c "<" then "&lt;"
  else if ascii_dec c ">" then "&gt;"
  else if ascii_dec c dquote then "&quot;"
  else String c "".

(** [escapeHtml]: [str.replace] of each of the characters [&], [<], [>] and
    the double quote by its entity. *)
Fixpoint escapeHtml (s : string) : string :=
  match s with
  | EmptyString => EmptyString
  | String c s' => escape_char c ++ escapeHtml s'
  end.

(** How an HTML parser reads the four entities [escapeHtml] writes. *)
Fixpoint html_decode (s : string) : string :=
  match s with
  | String "&" (String "a" (String "m" (String "p" (String ";" r)))) => String "&" (html_decode r)
  | String "&" (String "l" (String "t" (String ";" r))) => String "<" (html_decode r)
  | String "&" (String "g" (String "t" (String ";" r))) => String ">" (html_decode r)
  | String "&" (String "q" (String "u" (String "o" (String "t" (String ";" r))))) =>
      String dquote (html_decode r)
  | String c r => String c (html_decode r)
  | EmptyString => EmptyString
  end.

Lemma html_decode_plain c r : c <> "&"%char -> html_decode (String c r) = String c (html_decode r).
Proof.
  intros Hc. destruct c as [[] [] [] [] [] [] [] []]; try reflexivity. contradiction.
Qed.

Lemma escape_char_chars c x :
  In x (list_ascii_of_string (escape_char c)) -> x <> "<"%char /\ x <> ">"%char /\ x <> dquote.
Proof.
  unfold escape_char.
  destruct (ascii_dec c "&"); [simpl; intros H; repeat destruct H as [<-|H]; try done|].
  destruct (ascii_dec c "<"); [simpl; intros H; repeat destruct H as [<-|H]; try done|].
  destruct (ascii_dec c ">"); [simpl; intros H; repeat destruct H as [<-|H]; try done|].
  destruct (ascii_dec c dquote); [simpl; intros H; repeat destruct H as [<-|H]; try done|].
  simpl. intros [<-|[]]. done.
Qed.

Lemma list_ascii_of_string_app s1 s2 :
  list_ascii_of_string (s1 ++ s2) = (list_ascii_of_string s1 ++ list_ascii_of_string s2)%list.
Proof. induction s1; simpl; f_equal; auto. Qed.

Lemma lower_char_idem c : lower_char (lower_char c) = lower_char c.
Proof.
  unfold lower_char, ascii_code.
  destruct ((65 <=? nat_of_ascii c)%nat && (nat_of_ascii c <=? 90)%nat) eqn:E; [|rewrite E; done].
  apply andb_true_iff in E as [E1 E2]. apply Nat.leb_le in E1, E2.
  rewrite nat_ascii_embedding by lia.
  replace ((65 <=? nat_of_ascii c + 32)%nat && (nat_of_ascii c + 32 <=? 90)%nat) with false.
  - done.
  - symmetry. apply andb_false_iff. right. apply Nat.leb_gt. lia.
Qed.

Lemma toLowerCase_idem s : toLowerCase (toLowerCase s) = toLowerCase s.
Proof. induction s; simpl; [done|]. by rewrite lower_char_idem, IHs. Qed.

Lemma toLowerCase_app s1 s2 : toLowerCase (s1 ++ s2) = toLowerCase s1 ++ toLowerCase s2.
Proof. induction s1 as [|c s1 IH]; simpl; [done|]. by rewrite IH. Qed.

Lemma lower_char_word c : is_word_char c = true -> lower_char c = c.
Proof.
  unfold is_word_char, lower_char, ascii_code. intros H.
  destruct ((65 <=? nat_of_ascii c)%nat && (nat_of_ascii c <=? 90)%nat) eqn:E; [|done].
  apply andb_true_iff in E as [E1 E2]. apply Nat.leb_le in E1, E2.
  apply orb_true_iff in H as [H|H]; apply andb_true_iff in H as [H1 H2];
    apply Nat.leb_le in H1, H2; lia.
Qed.

Lemma split_words_nonempty s : split_words s <> [].
Proof.
  destruct s as [|c s]; simpl; [done|].
  destruct (is_word_char c); [destruct (split_words s); done|done].
Qed.

Definition word_string (w : string) : Prop :=
  Forall (fun c => is_word_char c = true) (list_ascii_of_string w).

Lemma split_words_chars s : Forall word_string (split_words s).
Proof.
  induction s as [|c s IH]; simpl.
  - repeat constructor.
  - destruct (is_word_char c) eqn:Ec.
    + destruct (split_words s) as [|w ws]; [repeat constructor; done|].
      inversion IH; subst. constructor; [|done]. constructor; done.
    + constructor; [constructor|done].
Qed.

Lemma split_words_app_sep x c y :
  is_word_char c = false -> split_words (x ++ String c y) = (split_words x ++ split_words y)%list.
Proof.
  intros Hc. induction x as [|d x IH]; simpl.
  - rewrite Hc. done.
  - rewrite IH. destruct (is_word_char d); [|done].
    pose proof (split_words_nonempty x). destruct (split_words x); done.
Qed.

Lemma split_words_word t : word_string t -> t <> "" -> split_words t = [t].
Proof.
  unfold word_string. induction t as [|c t IH]; simpl; intros Hw Hne; [done|].
  inversion Hw as [|? ? Hc Ht]; subst. rewrite Hc.
  destruct t as [|c' t'].
  - done.
  - rewrite IH; done.
Qed.

Lemma toLowerCase_word t : word_string t -> toLowerCase t = t.
Proof.
  unfold word_string. induction t as [|c t IH]; simpl; intros Hw; [done|].
  inversion Hw; subst. rewrite lower_char_word, IH; done.
Qed.

Lemma tokenize_app_sep a c b :
  is_word_char (lower_char c) = false -> tokenize (a ++ String c b) = (tokenize a ++ tokenize b)%list.
Proof.
  intros Hc. unfold tokenize. rewrite toLowerCase_app. simpl.
  rewrite split_words_app_sep by done. apply filter_app.
Qed.

(** X1: every token [tokenize] returns is non-empty, made of the characters
    [a-z0-9] only, and is its own tokenization; and [tokenize] ignores
    letter case. *)
Theorem tokenize_tokens_canonical (s : string) :
  tokenize (toLowerCase s) = tokenize s
  /\ (forall t, t ∈ tokenize s -> t <> "" /\ word_string t /\ tokenize t = [t]).
Proof.
  split; [unfold tokenize; by rewrite toLowerCase_idem|].
  intros t Ht. unfold tokenize in Ht. apply list_elem_of_filter in Ht as [Hne Hin].
  assert (Hne' : t <> "") by (intros ->; exact Hne).
  assert (Hw : word_string t).
  { pose proof (split_words_chars (toLowerCase s)) as Hall.
    rewrite List.Forall_forall in Hall. apply Hall. by apply list_elem_of_In. }
  split; [done|]. split; [done|].
  unfold tokenize. rewrite toLowerCase_word, split_words_word by done.
  rewrite filter_cons_True; [done|]. apply String.eqb_neq in Hne'. by rewrite Hne'.
Qed.

(** X2: a character that is not a word character after lowercasing splits
    the tokenization: the tokens of [a ++ c ++ b] are those of [a]
    followed by those of [b]. *)
Theorem tokenize_app_separator (a b : string) (c : ascii) :
  is_word_char (lower_char c) = false ->
  tokenize (a ++ String c b) = (tokenize a ++ tokenize b)%list.
Proof. intros Hc. by apply tokenize_app_sep. Qed.

Lemma tokenize_app_separator_witness :
  is_word_char (lower_char " ") = false
  /\ tokenize ("Mars" ++ String " " "soil-2") = (tokenize "Mars" ++ tokenize "soil-2")%list.
Proof.
  assert (H : is_word_char (lower_char " ") = false) by reflexivity.
  split; [exact H|]. exact (tokenize_app_separator "Mars" "soil-2" " " H).
Defined.

(** X3: the output of [escapeHtml] contains no [<], [>] or double quote,
    and an HTML parser reading its entities gets the input text back. *)
Theorem escapeHtml_safe (s : string) :
  html_decode (escapeHtml s) = s
  /\ (forall c, In c (list_ascii_of_string (escapeHtml s)) ->
        c <> "<"%char /\ c <> ">"%char /\ c <> dquote).
Proof.
  split.
  - induction s as [|c s IH]; simpl; [done|].
    unfold escape_char.
    destruct (ascii_dec c "&"); [subst; simpl; change (String.append "" (escapeHtml s)) with (escapeHtml s); by rewrite IH|].
    destruct (ascii_dec c "<"); [subst; simpl; change (String.append "" (escapeHtml s)) with (escapeHtml s); by rewrite IH|].
    destruct (ascii_dec c ">"); [subst; simpl; change (String.append "" (escapeHtml s)) with (escapeHtml s); by rewrite IH|].
    destruct (ascii_dec c dquote); [subst; simpl; change (String.append "" (escapeHtml s)) with (escapeHtml s); by rewrite IH|].
    change (String.append (String c "") (escapeHtml s)) with (String c (escapeHtml s)).
    rewrite html_decode_plain by done. by rewrite IH.
  - induction s as [|c s IH]; simpl; [done|].
    intros x Hx. rewrite list_ascii_of_string_app in Hx.
    apply in_app_or in Hx as [Hx|Hx]; [by eapply escape_char_chars|auto].
Qed.

(* ------------------------------------------------------------------ *)
(** ** Excerpt windows *)

(** [excerptFor(content, idx, len = 200)] of search.ts. *)
Definition excerptFor (content : string) (idx : nat) : string :=
  let len := 200%nat in
  let start := (idx - len / 2)%nat in
  let snippet := slice content start (Nat.min (String.length content) (start + len)) in
  (if (0 <? start)%nat then ellipsis else "") ++ snippet
  ++ (if (start + len <? String.length content)%nat then ellipsis else "").

(** The common shape of [makeExcerpt] and [excerptFor] for a window of
    [len] characters. *)
Definition excerpt_window (len : nat) (content : string) (idx : nat) : string :=
  let start := (idx - len / 2)%nat in
  let snippet := slice content start (Nat.min (String.length content) (start + len)) in
  (if (0 <? start)%nat then ellipsis else "") ++ snippet
  ++ (if (start + len <? String.length content)%nat then ellipsis else "").

Lemma makeExcerpt_window content idx m : makeExcerpt content idx m = excerpt_window 220 content idx.
Proof. reflexivity. Qed.

Lemma excerptFor_window content idx : excerptFor content idx = excerpt_window 200 content idx.
Proof. reflexivity. Qed.

Lemma string_length_list s : String.length s = length (list_ascii_of_string s).
Proof. induction s; simpl; auto. Qed.

Lemma list_substring n m s :
  list_ascii_of_string (substring n m s) = firstn m (skipn n (list_ascii_of_string s)).
Proof.
  revert n m. induction s as [|c s IH]; intros [|n] [|m]; simpl; try reflexivity.
  - by rewrite (IH 0%nat).
  - by rewrite IH.
  - by rewrite IH.
Qed.

Lemma string_eq_list s1 s2 : list_ascii_of_string s1 = list_ascii_of_string s2 -> s1 = s2.
Proof.
  intros H. rewrite <- (string_of_list_ascii_of_string s1), <- (string_of_list_ascii_of_string s2).
  by rewrite H.
Qed.

Lemma ellipsis_or_empty_length (b : bool) :
  (length (list_ascii_of_string (if b then ellipsis else "")) <= 3)%nat.
Proof. destruct b; simpl; lia. Qed.

(** The window shows the [m] characters at [idx] when [m] is at most half
    the window, is at most six bytes longer than the window, and is the
    whole content when the content fits and [idx] is in its first half. *)
Lemma excerpt_window_props (len : nat) (content : string) (idx m : nat) :
  (idx + m <= String.length content)%nat -> (m <= len / 2)%nat ->
  (exists k, substring k m (excerpt_window len content idx) = substring idx m content)
  /\ (String.length (excerpt_window len content idx) <= len + 6)%nat
  /\ ((String.length content <= len)%nat -> (idx <= len / 2)%nat ->
        excerpt_window len content idx = content).
Proof.
  intros Hfit Hm. unfold excerpt_window, slice.
  set (start := (idx - len / 2)%nat).
  set (C := list_ascii_of_string content).
  set (pre := if (0 <? start)%nat then ellipsis else "").
  set (post := if (start + len <? String.length content)%nat then ellipsis else "").
  set (k := (Nat.min (String.length content) (start + len) - start)%nat).
  assert (Hlen : String.length content = length C) by apply string_length_list.
  assert (Hdiv : (2 * (len / 2) <= len)%nat) by apply Nat.Div0.mul_div_le.
  set (h := (len / 2)%nat) in *.
  split; [|split].
  - exists (length (list_ascii_of_string pre) + (idx - start))%nat.
    apply string_eq_list. rewrite !list_substring, !list_ascii_of_string_app, list_substring.
    fold C. rewrite skipn_app.
    replace (skipn (length (list_ascii_of_string pre) + (idx - start)) (list_ascii_of_string pre))
      with (@nil ascii) by (symmetry; apply skipn_all2; lia).
    rewrite app_nil_l.
    replace (length (list_ascii_of_string pre) + (idx - start) - length (list_ascii_of_string pre))%nat
      with (idx - start)%nat by lia.
    rewrite skipn_app, firstn_app, skipn_firstn_comm, firstn_firstn, skipn_skipn.
    assert (Hk : (length (firstn k (skipn start C)) - (idx - start) >= m)%nat).
    { rewrite length_firstn, length_skipn. subst k start. lia. }
    replace (idx - start + start)%nat with idx by (subst start; lia).
    replace (Nat.min m (k - (idx - start))) with m by (subst k start; lia).
    replace (m - length (firstn (k - (idx - start)) (skipn idx C)))%nat with 0%nat.
    + by rewrite firstn_O, app_nil_r.
    + rewrite length_firstn, length_skipn. subst k start. lia.
  - rewrite !string_length_list, !list_ascii_of_string_app, !length_app, list_substring.
    pose proof (ellipsis_or_empty_length (0 <? start)%nat).
    pose proof (ellipsis_or_empty_length (start + len <? String.length content)%nat).
    fold pre post in H, H0. rewrite length_firstn. subst k. lia.
  - intros Hc Hi.
    assert (Hs : start = 0%nat) by (subst start; lia).
    subst pre post k. rewrite Hs. simpl.
    destruct (Nat.ltb_spec len (String.length content)); [lia|].
    apply string_eq_list. rewrite !list_ascii_of_string_app, list_substring. simpl.
    rewrite app_nil_r, Nat.sub_0_r, Nat.min_l by lia. fold C. rewrite Hlen. apply firstn_all.
Qed.

(** X4 (makeExcerpt, App.tsx): when the match of length [matchLen] at
    [idx] lies inside the content and [matchLen] is at most 110, the
    excerpt shows the whole match; the excerpt holds at most 220 characters
    of the content plus two ellipsis marks; and a content of at most 220
    characters with the match in its first 110 characters is shown whole,
    without ellipsis. *)
Theorem makeExcerpt_shows_match (content : string) (idx matchLen : nat) :
  (idx + matchLen <= String.length content)%nat -> (matchLen <= 110)%nat ->
  (exists k, substring k matchLen (makeExcerpt content idx matchLen)
             = substring idx matchLen content)
  /\ (String.length (makeExcerpt content idx matchLen) <= 220 + 2 * String.length ellipsis)%nat
  /\ ((String.length content <= 220)%nat -> (idx <= 110)%nat ->
        makeExcerpt content idx matchLen = content).
Proof.
  intros Hfit Hm. rewrite makeExcerpt_window.
  exact (excerpt_window_props 220 content idx matchLen Hfit Hm).
Qed.

Lemma makeExcerpt_shows_match_witness :
  ((4 + 4 <= String.length "red dust")%nat /\ (4 <= 110)%nat) /\
  ((exists k, substring k 4 (makeExcerpt "red dust" 4 4) = substring 4 4 "red dust")
  /\ (String.length (makeExcerpt "red dust" 4 4) <= 220 + 2 * String.length ellipsis)%nat
  /\ ((String.length "red dust" <= 220)%nat -> (4 <= 110)%nat ->
        makeExcerpt "red dust" 4 4 = "red dust")).
Proof.
  split; [split; simpl; lia|].
  apply makeExcerpt_shows_match; simpl; lia.
Defined.

(** X5 (excerptFor, search.ts): the same window with 200 characters: a
    match of at most 100 characters inside the content is shown whole; the
    excerpt holds at most 200 characters of the content plus two ellipsis
    marks; a content of at most 200 characters with the match in its first
    100 characters is shown whole. *)
Theorem excerptFor_shows_match (content : string) (idx matchLen : nat) :
  (idx + matchLen <= String.length content)%nat -> (matchLen <= 100)%nat ->
  (exists k, substring k matchLen (excerptFor content idx)
             = substring idx matchLen content)
  /\ (String.length (excerptFor content idx) <= 200 + 2 * String.length ellipsis)%nat
  /\ ((String.length content <= 200)%nat -> (idx <= 100)%nat ->
        excerptFor content idx = content).
Proof.
  intros Hfit Hm. rewrite excerptFor_window.
  exact (excerpt_window_props 200 content idx matchLen Hfit Hm).
Qed.

Lemma excerptFor_shows_match_witness :
  ((4 + 4 <= String.length "red dust")%nat /\ (4 <= 100)%nat) /\
  ((exists k, substring k 4 (excerptFor "red dust" 4) = substring 4 4 "red dust")
  /\ (String.length (excerptFor "red dust" 4) <= 200 + 2 * String.length ellipsis)%nat
  /\ ((String.length "red dust" <= 200)%nat -> (4 <= 100)%nat ->
        excerptFor "red dust" 4 = "red dust")).
Proof.
  split; [split; simpl; lia|].
  apply excerptFor_shows_match; simpl; lia.
Defined.

(** ** Outcomes of [doSearch] and the content tier *)

Lemma includes_empty p : includes "" p = true -> p = "".
Proof.
  unfold includes, indexOf. simpl. destruct p; simpl; [done|discriminate].
Qed.

Lemma count_matches_pos_from s p (i : nat) :
  indexOf_from s p i <> None -> (1 <= count_matches s p)%nat.
Proof.
  unfold count_matches. revert i.
  induction s as [|c s IH]; intros i H; cbn -[String.prefix] in *.
  - destruct (String.prefix p ""); [lia|congruence].
  - destruct (String.prefix p (String c s)); [lia|]. exact (IH (S i) H).
Qed.

Lemma count_matches_pos s p : includes s p = true -> (1 <= count_matches s p)%nat.
Proof.
  unfold includes, indexOf. intros H. apply (count_matches_pos_from s p 0).
  destruct (indexOf_from s p 0); discriminate.
Qed.

Lemma narrow_empty_inv ts : match narrow ∅ ts with Some c => c | None => [] end = [].
Proof.
  unfold narrow. destruct ts as [|t ts]; [done|]. simpl. by rewrite lookup_empty.
Qed.

(** A step-2 entry with its [matches] field. *)
Definition tier1_full (phrase : string) (e : string * Doc) (x : string * SearchResult) : Prop :=
  let '(id, d) := e in
  exists idx, fst x = id /\ r_id (snd x) = id
  /\ indexOf (toLowerCase (d_content d)) phrase = Some idx
  /\ r_title (snd x) = d_title d
  /\ r_excerpt (snd x) = makeExcerpt (d_content d) idx (String.length phrase)
  /\ r_score (snd x) = 10%Z
  /\ r_matches (snd x) = Z.of_nat (count_matches (toLowerCase (d_content d)) phrase).

Lemma tier1_hit_inv_full phrase m e y :
  In y (tier1_hit phrase m e) -> In y m \/ tier1_full phrase e y.
Proof.
  destruct e as [id d]. unfold tier1_hit. destruct (map_has m id); [auto|].
  destruct (indexOf _ _) as [idx|] eqn:E; [|auto].
  intros [->|H]%In_map_set; [right|auto]. simpl. exists idx. auto 10.
Qed.

Section Outcomes.
Variable localeCompare : string -> string -> Z.
Variable small_fuse_search : list Doc -> string -> nat -> list (Doc * option Q).
Variable global_fuse_search : list Doc -> string -> nat -> list (Doc * option Q).
Variable AIU : string -> string -> string.

Lemma ranked_no_docs ix q :
  docs ix = [] -> inverted ix = ∅ -> ranked localeCompare small_fuse_search global_fuse_search ix q = [].
Proof.
  intros Hd Hi. unfold ranked, hitsMap, exact_hits.
  rewrite Hd. simpl. unfold candidate_ids. rewrite Hd, Hi. simpl.
  rewrite narrow_empty_inv. reflexivity.
Qed.

(** X7: with no document indexed yet (no documents and an empty inverted
    index, as before the first document is indexed), every question
    throws. *)
Theorem doSearch_question_without_docs_throws (ix : Index) (q0 : string) :
  docs ix = [] -> inverted ix = ∅ -> includes (trim q0) "?" = true ->
  doSearch localeCompare small_fuse_search global_fuse_search AIU ix q0 = None.
Proof.
  intros Hd Hi Hq. unfold doSearch. cbv zeta.
  destruct (String.eqb_spec (trim q0) "") as [E|_].
  - rewrite E in Hq. apply includes_empty in Hq. discriminate.
  - rewrite Hq, ranked_no_docs by done. reflexivity.
Qed.

(** X8: a document whose lowercased title does not contain the phrase
    but whose lowercased content does, first at [idx], has exactly one
    entry in the ranked list: score 10, its title, the excerpt at [idx],
    and as many matches (at least one) as the phrase has non-overlapping
    occurrences in the lowercased content. *)
Theorem content_match_entry (ix : Index) (q : string) (id : string) (d : Doc) (idx : nat) :
  NoDup (map fst (docs ix)) ->
  In (id, d) (docs ix) ->
  includes (toLowerCase (d_title d)) (phrase_of q) = false ->
  indexOf (toLowerCase (d_content d)) (phrase_of q) = Some idx ->
  exists e,
    In e (ranked localeCompare small_fuse_search global_fuse_search ix q)
    /\ r_id e = id /\ r_title e = d_title d /\ r_score e = 10%Z
    /\ r_excerpt e = makeExcerpt (d_content d) idx (String.length (phrase_of q))
    /\ r_matches e = Z.of_nat (count_matches (toLowerCase (d_content d)) (phrase_of q))
    /\ (1 <= r_matches e)%Z
    /\ (forall e', In e' (ranked localeCompare small_fuse_search global_fuse_search ix q) -> r_id e' = id -> e' = e).
Proof.
  intros Hnd Hin Htitle Hidx. set (phrase := phrase_of q) in *.
  assert (H0 : id ∉ map fst (foldl (tier0_hit phrase) [] (docs ix))).
  { intros Hk. apply list_elem_of_In, in_map_iff in Hk as [[k e] [Hke Hx]]. simpl in Hke. subst k.
    destruct (foldl_map_inv _ _ _ _ _ (tier0_hit_inv phrase) Hx) as [[]|[[id' d'] [Hin' Ht]]].
    simpl in Ht. destruct Ht as (Hk' & _ & Hinc & _). simpl in Hk'. subst id'.
    assert (d' = d) as -> by (eapply NoDup_keys_unique; eauto). congruence. }
  pose proof (tier1_fold_has phrase (docs ix) (foldl (tier0_hit phrase) [] (docs ix)) id d idx Hin Hidx)
    as Hk.
  fold (exact_hits (docs ix) phrase) in Hk.
  apply list_elem_of_In, in_map_iff in Hk as [[k e] [Hke Hx]]. simpl in Hke. subst k.
  unfold exact_hits in Hx.
  destruct (foldl_map_inv _ _ _ _ _ (tier1_hit_inv_full phrase) Hx) as [Hx0|[[id' d'] [Hin' Ht]]].
  { exfalso. apply H0. eapply In_key, Hx0. }
  simpl in Ht. destruct Ht as (idx' & Hk' & Hid & Hidx' & Htl & Hexc & Hsc & Hm). simpl in Hk'. subst id'.
  assert (d' = d) as -> by (eapply NoDup_keys_unique; eauto).
  rewrite Hidx in Hidx'. injection Hidx' as <-.
  assert (Hh : In (id, e) (hitsMap small_fuse_search global_fuse_search ix q)).
  { apply exact_in_hitsMap. exact Hx. }
  exists e. split; [|split; [done|split; [done|split; [done|split; [done|split; [done|split]]]]]].
  - apply list_elem_of_In. rewrite ranked_perm. apply list_elem_of_In, in_map_iff.
    exists (id, e). auto.
  - rewrite Hm. enough (1 <= count_matches (toLowerCase (d_content d)) phrase)%nat by lia.
    apply count_matches_pos. unfold includes. by rewrite Hidx.
  - intros e' He' Hid'. apply In_ranked in He'. rewrite Hid' in He'.
    eapply NoDup_keys_unique; [apply hitsMap_nodup|exact He'|exact Hh].
Qed.

End Outcomes.

Lemma doSearch_question_without_docs_throws_witness :
  (docs empty_index = [] /\ inverted empty_index = ∅ /\ includes (trim "why?") "?" = true)
  /\ doSearch lc_ex fuse_ex fuse_ex aiu_ex empty_index "why?" = None.
Proof.
  assert (H : includes (trim "why?") "?" = true) by (vm_compute; reflexivity).
  split; [split; [reflexivity|split; [reflexivity|exact H]]|].
  exact (doSearch_question_without_docs_throws lc_ex fuse_ex fuse_ex aiu_ex
           empty_index "why?" eq_refl eq_refl H).
Defined.

Lemma content_match_entry_witness :
  let q := "regolith" in
  let id := "dust soil notes.txt" in
  (NoDup (map fst (docs ix_ex)) /\ In (id, doc_ex3) (docs ix_ex)
   /\ includes (toLowerCase (d_title doc_ex3)) (phrase_of q) = false
   /\ indexOf (toLowerCase (d_content doc_ex3)) (phrase_of q) = Some 0%nat)
  /\ (exists e,
    In e (ranked lc_ex fuse_ex fuse_ex ix_ex q)
    /\ r_id e = id /\ r_title e = d_title doc_ex3 /\ r_score e = 10%Z
    /\ r_excerpt e = makeExcerpt (d_content doc_ex3) 0 (String.length (phrase_of q))
    /\ r_matches e = Z.of_nat (count_matches (toLowerCase (d_content doc_ex3)) (phrase_of q))
    /\ (1 <= r_matches e)%Z
    /\ (forall e', In e' (ranked lc_ex fuse_ex fuse_ex ix_ex q) -> r_id e' = id -> e' = e)).
Proof.
  intros q id.
  assert (H1 : NoDup (map fst (docs ix_ex))).
  { assert (Hb : bool_decide (NoDup (map fst (docs ix_ex))) = true) by (vm_compute; reflexivity).
    by apply bool_decide_eq_true in Hb. }
  assert (H2 : In (id, doc_ex3) (docs ix_ex)).
  { vm_compute. repeat first [left; reflexivity | right]. }
  assert (H3 : includes (toLowerCase (d_title doc_ex3)) (phrase_of q) = false)
    by (vm_compute; reflexivity).
  assert (H4 : indexOf (toLowerCase (d_content doc_ex3)) (phrase_of q) = Some 0%nat)
    by (vm_compute; reflexivity).
  split; [split; [exact H1|split; [exact H2|split; [exact H3|exact H4]]]|].
  exact (content_match_entry lc_ex fuse_ex fuse_ex ix_ex q id doc_ex3 0 H1 H2 H3 H4).
Defined.

(* ------------------------------------------------------------------ *)
(** ** [search] of search.ts *)

(** The characters [lower.replace(/[.*+?^${}()|[\]\\]/g, '')] removes. *)
Definition regex_special (c : ascii) : bool :=
  existsb (fun x => Ascii.eqb x c)
    ["."; "*"; "+"; "?"; "^"; "$"; "{"; "}"; "("; ")"; "|"; "["; "]"; "\"]%char.

Fixpoint strip_specials (s : string) : string :=
  match s with
  | EmptyString => EmptyString
  | String c s' => if regex_special c then strip_specials s' else String c (strip_specials s')
  end.

(** One pass of the [for (const d of docs)] loop: [hits.push] of a
    title hit or a content hit. The results of search.ts carry no
    [content] or [url]; they are the empty string here. *)
Definition ts_exact (lower : string) (hits : list SearchResult) (d : Doc) : list SearchResult :=
  let titleLower := toLowerCase (d_title d) in
  let contentLower := toLowerCase (d_content d) in
  if includes titleLower lower then
    (hits ++ [mkResult (d_id d) (d_title d) (d_title d) 0 1 "" ""])%list
  else
    match indexOf contentLower lower with
    | Some idx =>
        (hits ++ [mkResult (d_id d) (d_title d) (excerptFor (d_content d) idx) 10
                    (Z.of_nat (count_matches contentLower (strip_specials lower))) "" ""])%list
    | None => hits
    end.

(** One pass of the [for (const fr of fuseResults)] loop. *)
Definition ts_fuzzy (q : string) (hits : list SearchResult) (fr : Doc * option Q) : list SearchResult :=
  let '(d, sc) := fr in
  if existsb (fun h => String.eqb (r_id h) (d_id d)) hits then hits
  else
    let score := (js_round (default 1%Q sc * 100)%Q + 50)%Z in
    let excerpt :=
      match indexOf (toLowerCase (d_content d)) (toLowerCase q) with
      | Some pos => excerptFor (d_content d) pos
      | None => slice (d_content d) 0 200
                ++ (if (200 <? String.length (d_content d))%nat then ellipsis else "")
      end in
    (hits ++ [mkResult (d_id d) (d_title d) excerpt score 0 "" ""])%list.

Section SearchTs.
(** [a.title.localeCompare(b.title)]. *)
Variable localeCompare : string -> string -> Z.
(** [fuse.search(q, {limit})] of the Fuse instance built over [docs]. *)
Variable fuse_search : list Doc -> string -> nat -> list (Doc * option Q).

Definition search_ts (docs : list Doc) (q0 : string) (max : nat) : list SearchResult :=
  let q := trim q0 in
  if String.eqb q "" then []
  else
    let lower := toLowerCase q in
    let hits := foldl (ts_exact lower) [] docs in
    let hits := foldl (ts_fuzzy q) hits (fuse_search docs q (max * 2)) in
    take max (sort_results localeCompare hits).

End SearchTs.

(** What each kind of entry of [search_ts] records. *)
Definition ts_title_entry (lower : string) (d : Doc) (e : SearchResult) : Prop :=
  r_id e = d_id d /\ r_title e = d_title d
  /\ includes (toLowerCase (d_title d)) lower = true
  /\ r_excerpt e = d_title d /\ r_score e = 0%Z /\ r_matches e = 1%Z.

Definition ts_content_entry (lower : string) (d : Doc) (e : SearchResult) : Prop :=
  exists idx, r_id e = d_id d /\ r_title e = d_title d
  /\ includes (toLowerCase (d_title d)) lower = false
  /\ indexOf (toLowerCase (d_content d)) lower = Some idx
  /\ r_excerpt e = excerptFor (d_content d) idx /\ r_score e = 10%Z
  /\ r_matches e = Z.of_nat (count_matches (toLowerCase (d_content d)) (strip_specials lower)).

Definition ts_fuzzy_entry (fr : Doc * option Q) (e : SearchResult) : Prop :=
  let '(d, sc) := fr in
  r_id e = d_id d /\ r_title e = d_title d
  /\ r_score e = (js_round (default 1%Q sc * 100)%Q + 50)%Z /\ r_matches e = 0%Z.

Lemma ts_exact_fold_inv lower (ds : list Doc) acc e :
  In e (foldl (ts_exact lower) acc ds) ->
  In e acc \/ exists d, In d ds /\ (ts_title_entry lower d e \/ ts_content_entry lower d e).
Proof.
  revert acc. induction ds as [|d ds IH]; intros acc H; simpl in *; [auto|].
  destruct (IH _ H) as [H0|[d' [Hd' He]]]; [|eauto].
  unfold ts_exact in H0.
  destruct (includes _ _) eqn:Et.
  - apply in_app_iff in H0 as [H0|[<-|[]]]; [auto|].
    right. exists d. split; [auto|left]. unfold ts_title_entry. simpl. auto 10.
  - destruct (indexOf _ _) as [idx|] eqn:Ei; [|auto].
    apply in_app_iff in H0 as [H0|[<-|[]]]; [auto|].
    right. exists d. split; [auto|right]. exists idx. simpl. auto 10.
Qed.

Lemma ts_exact_ids lower (hits : list SearchResult) d :
  map r_id (ts_exact lower hits d) = map r_id hits
  \/ map r_id (ts_exact lower hits d) = (map r_id hits ++ [d_id d])%list.
Proof.
  unfold ts_exact. destruct (includes _ _); [right; by rewrite map_app|].
  destruct (indexOf _ _); [right; by rewrite map_app|auto].
Qed.

Lemma ts_exact_fold_nodup lower (ds : list Doc) acc :
  NoDup (map r_id acc ++ map d_id ds) -> NoDup (map r_id (foldl (ts_exact lower) acc ds)).
Proof.
  revert acc. induction ds as [|d ds IH]; intros acc H; simpl in *.
  - by rewrite app_nil_r in H.
  - apply IH. destruct (ts_exact_ids lower acc d) as [E|E]; rewrite E.
    + apply NoDup_app in H as (H1 & H2 & H3). apply NoDup_app. split; [done|].
      split; [|by apply NoDup_cons in H3 as [_ ?]].
      intros x Hx Hx'. apply (H2 x Hx). by apply elem_of_cons; right.
    + by rewrite <- app_assoc.
Qed.

Lemma ts_exact_fold_mono lower (ds : list Doc) acc k :
  k ∈ map r_id acc -> k ∈ map r_id (foldl (ts_exact lower) acc ds).
Proof.
  revert acc. induction ds as [|d ds IH]; intros acc Hk; simpl; [done|].
  apply IH. destruct (ts_exact_ids lower acc d) as [E|E]; rewrite E; [done|].
  apply elem_of_app. auto.
Qed.

Lemma ts_exact_fold_has lower (ds : list Doc) acc d :
  In d ds ->
  (includes (toLowerCase (d_title d)) lower = true
   \/ indexOf (toLowerCase (d_content d)) lower <> None) ->
  d_id d ∈ map r_id (foldl (ts_exact lower) acc ds).
Proof.
  revert acc. induction ds as [|d' ds IH]; intros acc Hin Hm; simpl in *; [done|].
  destruct Hin as [->|Hin]; [|auto].
  apply ts_exact_fold_mono. unfold ts_exact.
  destruct (includes _ _) eqn:Et.
  - rewrite map_app. apply elem_of_app. right. apply list_elem_of_singleton. done.
  - destruct Hm as [Hm|Hm]; [congruence|].
    destruct (indexOf _ _); [|congruence].
    rewrite map_app. apply elem_of_app. right. apply list_elem_of_singleton. done.
Qed.

Lemma ts_exact_fold_length lower (ds : list Doc) acc :
  (length (foldl (ts_exact lower) acc ds) <= length acc + length ds)%nat.
Proof.
  revert acc. induction ds as [|d ds IH]; intros acc; simpl; [lia|].
  specialize (IH (ts_exact lower acc d)).
  enough (length (ts_exact lower acc d) <= S (length acc))%nat by lia.
  unfold ts_exact. destruct (includes _ _); [rewrite length_app; simpl; lia|].
  destruct (indexOf _ _); [rewrite length_app; simpl; lia|lia].
Qed.

Lemma existsb_id_false (hits : list SearchResult) k :
  existsb (fun h => String.eqb (r_id h) k) hits = false -> k ∉ map r_id hits.
Proof.
  intros H Hk. apply list_elem_of_In, in_map_iff in Hk as [h [Hh Hin]].
  assert (Ht : existsb (fun h => String.eqb (r_id h) k) hits = true).
  { apply existsb_exists. exists h. split; [done|]. by apply String.eqb_eq. }
  congruence.
Qed.

Lemma existsb_id_true (hits : list SearchResult) k :
  existsb (fun h => String.eqb (r_id h) k) hits = true -> k ∈ map r_id hits.
Proof.
  intros H. apply existsb_exists in H as [h [Hin Hh]]. apply String.eqb_eq in Hh.
  apply list_elem_of_In, in_map_iff. eauto.
Qed.

Lemma ts_fuzzy_ids q (hits : list SearchResult) fr :
  map r_id (ts_fuzzy q hits fr) = map r_id hits
  \/ ((d_id (fst fr) ∉ map r_id hits)
     /\ map r_id (ts_fuzzy q hits fr) = (map r_id hits ++ [d_id (fst fr)])%list).
Proof.
  destruct fr as [d sc]. unfold ts_fuzzy. simpl.
  destruct (existsb _ hits) eqn:E; [auto|].
  right. split; [by apply existsb_id_false|]. by rewrite map_app.
Qed.

Lemma ts_fuzzy_fold_inv q frs (acc : list SearchResult) e :
  In e (foldl (ts_fuzzy q) acc frs) ->
  In e acc \/ ((exists fr, In fr frs /\ ts_fuzzy_entry fr e) /\ r_id e ∉ map r_id acc).
Proof.
  revert acc. induction frs as [|fr frs IH]; intros acc H; simpl in *; [auto|].
  assert (Hsub : forall k, k ∈ map r_id acc -> k ∈ map r_id (ts_fuzzy q acc fr)).
  { intros k Hk. destruct (ts_fuzzy_ids q acc fr) as [E|[_ E]]; rewrite E; [done|].
    apply elem_of_app. auto. }
  destruct (IH _ H) as [H0|[[fr' [Hfr' He]] Hk]].
  - destruct fr as [d sc]. unfold ts_fuzzy in H0.
    destruct (existsb _ acc) eqn:Ex; [auto|].
    apply in_app_iff in H0 as [H0|[<-|[]]]; [auto|].
    right. split.
    + exists (d, sc). split; [auto|]. simpl. auto 10.
    + simpl. by apply existsb_id_false.
  - right. split; [eauto|]. intros Hk'. by apply Hk, Hsub.
Qed.

Lemma ts_fuzzy_fold_nodup q frs (acc : list SearchResult) :
  NoDup (map r_id acc) -> NoDup (map r_id (foldl (ts_fuzzy q) acc frs)).
Proof.
  revert acc. induction frs as [|fr frs IH]; intros acc H; simpl; [done|].
  apply IH. destruct (ts_fuzzy_ids q acc fr) as [E|[Hn E]]; rewrite E; [done|].
  apply NoDup_app. split; [done|]. split; [|apply NoDup_singleton].
  intros x Hx Hx'. apply list_elem_of_singleton in Hx'. subst. done.
Qed.

Lemma ts_fuzzy_fold_keep q frs (acc : list SearchResult) e :
  In e acc -> In e (foldl (ts_fuzzy q) acc frs).
Proof.
  revert acc. induction frs as [|[d sc] frs IH]; intros acc H; simpl; [done|].
  apply IH. unfold ts_fuzzy. destruct (existsb _ acc); [done|].
  apply in_app_iff. auto.
Qed.

Lemma Sorted_take {A} (R : A -> A -> Prop) n (l : list A) : Sorted R l -> Sorted R (take n l).
Proof.
  revert n. induction l as [|x l IH]; intros [|n] Hs; simpl; [constructor|constructor|constructor|].
  apply Sorted_inv in Hs as [Hs Hhd]. constructor; [auto|].
  destruct l as [|y l]; destruct n; simpl; constructor. by inversion Hhd.
Qed.

Lemma In_take {A} n (l : list A) x : In x (take n l) -> In x l.
Proof. intros H. rewrite <- (take_drop n l). apply in_app_iff. auto. Qed.

Lemma ts_fuzzy_fold_split q frs (acc : list SearchResult) :
  exists F, foldl (ts_fuzzy q) acc frs = (acc ++ F)%list
            /\ Forall (fun f => exists fr, In fr frs /\ ts_fuzzy_entry fr f) F.
Proof.
  revert acc. induction frs as [|[d sc] frs IH]; intros acc.
  - exists []. simpl. by rewrite app_nil_r.
  - change (foldl (ts_fuzzy q) acc ((d, sc) :: frs))
      with (foldl (ts_fuzzy q) (ts_fuzzy q acc (d, sc)) frs).
    assert (Hstep : ts_fuzzy q acc (d, sc) = acc
                    \/ exists x, ts_fuzzy q acc (d, sc) = (acc ++ [x])%list
                                 /\ ts_fuzzy_entry (d, sc) x).
    { unfold ts_fuzzy. destruct (existsb _ acc); [auto|]. right.
      eexists. split; [reflexivity|]. simpl. auto 10. }
    destruct Hstep as [E0|[x [E0 Hx]]]; rewrite E0.
    + destruct (IH acc) as [F [E HF]]. exists F. split; [done|].
      eapply List.Forall_impl; [|exact HF]. intros f [fr [Hfr Hf]]. exists fr. split; [right; exact Hfr|exact Hf].
    + destruct (IH (acc ++ [x])%list) as [F [E HF]].
      exists (x :: F). rewrite E, <- app_assoc. split; [reflexivity|].
      constructor; [exists (d, sc); split; [left; done|exact Hx]|].
      eapply List.Forall_impl; [|exact HF]. intros f [fr [Hfr Hf]]. exists fr. split; [right; exact Hfr|exact Hf].
Qed.

(** Counting the entries scored at most 10 up to a position of a list
    sorted by score. *)
Lemma sorted_low_prefix (l : list SearchResult) i x :
  StronglySorted score_le l -> l !! i = Some x -> (r_score x <= 10)%Z ->
  (S i <= length (filter (fun y => (r_score y <= 10)%Z) l))%nat.
Proof.
  intros Hs. revert i. induction Hs as [|y l Hs IH Hall]; intros i Hi Hx; [done|].
  rewrite filter_cons. destruct i as [|i]; simpl in Hi.
  - injection Hi as ->. rewrite decide_True by done. simpl. lia.
  - assert (Hy : (r_score y <= 10)%Z).
    { rewrite List.Forall_forall in Hall. specialize (Hall x).
      unfold score_le in Hall. enough (r_score y <= r_score x)%Z by lia.
      apply Hall. eapply list_elem_of_In, list_elem_of_lookup_2; eauto. }
    rewrite decide_True by done. simpl. specialize (IH i Hi Hx). lia.
Qed.

Section SearchTsProps.
Variable localeCompare : string -> string -> Z.
Variable fuse_search : list Doc -> string -> nat -> list (Doc * option Q).

Lemma search_ts_In (ds : list Doc) q0 max e :
  In e (search_ts localeCompare fuse_search ds q0 max) ->
  trim q0 <> "" /\
  In e (foldl (ts_fuzzy (trim q0)) (foldl (ts_exact (toLowerCase (trim q0))) [] ds)
          (fuse_search ds (trim q0) (max * 2))).
Proof.
  unfold search_ts. destruct (String.eqb_spec (trim q0) "") as [_|Hq]; [intros []|].
  intros H. split; [done|]. apply In_take in H.
  apply list_elem_of_In in H. rewrite (sort_results_perm localeCompare) in H.
  by apply list_elem_of_In.
Qed.

(** X9: [search] of search.ts returns no results for a blank query, at
    most [max] results, ordered by ascending score, then descending
    matches, then title (for an antisymmetric [localeCompare]), and with
    pairwise distinct ids when the documents' ids are distinct. *)
Theorem search_ts_shape (ds : list Doc) (q0 : string) (max : nat) :
  let res := search_ts localeCompare fuse_search ds q0 max in
  (trim q0 = "" -> res = [])
  /\ (length res <= max)%nat
  /\ ((forall s t, Z.sgn (localeCompare t s) = (- Z.sgn (localeCompare s t))%Z) ->
        Sorted (ordered_pair localeCompare) res)
  /\ (NoDup (map d_id ds) -> NoDup (map r_id res)).
Proof.
  intros res. unfold res, search_ts.
  destruct (String.eqb_spec (trim q0) "") as [Hq|Hq].
  { repeat split; [simpl; lia|constructor|constructor]. }
  split; [done|]. split; [rewrite length_take; lia|]. split.
  - intros Hlc. apply Sorted_take, sort_results_ordered, Hlc.
  - intros Hnd.
    assert (Hnd' : NoDup (map r_id (sort_results localeCompare
              (foldl (ts_fuzzy (trim q0)) (foldl (ts_exact (toLowerCase (trim q0))) [] ds)
                 (fuse_search ds (trim q0) (max * 2)))))).
    { rewrite (sort_results_perm localeCompare). apply ts_fuzzy_fold_nodup, ts_exact_fold_nodup.
      exact Hnd. }
    rewrite <- (take_drop max (sort_results _ _)) in Hnd'. rewrite map_app in Hnd'.
    by apply NoDup_app in Hnd' as [? _].
Qed.

(** X10: every result of [search] is a title hit (score 0, one match, the
    title as excerpt) of a document whose lowercased title contains the
    lowercased query; or a content hit (score 10, the excerpt at the first
    occurrence, the matches of the query with the regular-expression
    characters removed) of a document whose title does not contain it but
    whose content does; or a fuzzy result (score [Math.round(s * 100) + 50],
    no matches) of the Fuse search whose id no document with an exact hit
    has. *)
Theorem search_ts_entries (ds : list Doc) (q0 : string) (max : nat) (e : SearchResult) :
  In e (search_ts localeCompare fuse_search ds q0 max) ->
  let q := trim q0 in
  let lower := toLowerCase q in
  (exists d, In d ds /\ ts_title_entry lower d e)
  \/ (exists d, In d ds /\ ts_content_entry lower d e)
  \/ ((exists fr, In fr (fuse_search ds q (max * 2)) /\ ts_fuzzy_entry fr e)
      /\ (forall d, In d ds -> d_id d = r_id e ->
            includes (toLowerCase (d_title d)) lower = false
            /\ indexOf (toLowerCase (d_content d)) lower = None)).
Proof.
  intros He q lower. apply search_ts_In in He as [_ He]. fold q lower in He.
  destruct (ts_fuzzy_fold_inv _ _ _ _ He) as [H0|[Hfz Hk]].
  - destruct (ts_exact_fold_inv _ _ _ _ H0) as [[]|[d [Hd [Ht|Hc]]]]; eauto.
  - right. right. split; [exact Hfz|]. intros d Hd Hid.
    destruct (includes (toLowerCase (d_title d)) lower) eqn:Et.
    { exfalso. apply Hk. rewrite <- Hid. apply ts_exact_fold_has; auto. }
    split; [done|].
    destruct (indexOf (toLowerCase (d_content d)) lower) eqn:Ei; [|done].
    exfalso. apply Hk. rewrite <- Hid. apply ts_exact_fold_has; [done|]. right. congruence.
Qed.

(** X11: with at most [max] documents and the non-negative scores Fuse
    reports, no exact hit is cut off: every document whose lowercased
    title or content contains the lowercased non-blank query has its id
    among the results. *)
Theorem search_ts_exact_kept (ds : list Doc) (q0 : string) (max : nat) (d : Doc) :
  (forall l q' n d' s, In (d', Some s) (fuse_search l q' n) -> (0 <= s)%Q) ->
  (length ds <= max)%nat ->
  trim q0 <> "" ->
  In d ds ->
  includes (toLowerCase (d_title d)) (toLowerCase (trim q0)) = true
  \/ includes (toLowerCase (d_content d)) (toLowerCase (trim q0)) = true ->
  d_id d ∈ map r_id (search_ts localeCompare fuse_search ds q0 max).
Proof.
  intros Hnn Hlen Hq Hd Hm.
  set (q := trim q0) in *. set (lower := toLowerCase q) in *.
  set (E := foldl (ts_exact lower) [] ds).
  set (frs := fuse_search ds q (max * 2)).
  destruct (ts_fuzzy_fold_split q frs E) as [F [HH HF]].
  set (S := sort_results localeCompare (foldl (ts_fuzzy q) E frs)).
  assert (Hres : search_ts localeCompare fuse_search ds q0 max = take max S).
  { unfold search_ts. fold q. destruct (String.eqb_spec q "") as [|_]; [done|]. reflexivity. }
  rewrite Hres.
  assert (HE : d_id d ∈ map r_id E).
  { apply ts_exact_fold_has; [done|]. destruct Hm as [Hm|Hm]; [auto|right].
    unfold includes in Hm. destruct (indexOf _ _); [discriminate|done]. }
  apply list_elem_of_In, in_map_iff in HE as [x [Hx HxE]].
  assert (Hsx : (r_score x <= 10)%Z).
  { destruct (ts_exact_fold_inv _ _ _ _ HxE) as [[]|[d' [_ [Ht|Hc]]]].
    - destruct Ht as (_ & _ & _ & _ & -> & _). lia.
    - destruct Hc as (idx & _ & _ & _ & _ & _ & -> & _). lia. }
  assert (HxS : x ∈ S).
  { unfold S. rewrite (sort_results_perm localeCompare), HH. apply elem_of_app. left.
    by apply list_elem_of_In. }
  apply list_elem_of_lookup in HxS as [i Hi].
  assert (Hcount : (length (filter (fun y => (r_score y <= 10)%Z) S) <= length ds)%nat).
  { unfold S. rewrite (sort_results_perm localeCompare), HH, filter_app.
    assert (HF0 : filter (fun y => (r_score y <= 10)%Z) F = []).
    { clear -HF Hnn. induction HF as [|f F Hf HF IH]; [done|].
      rewrite filter_cons, decide_False; [done|].
      destruct Hf as [[dd sc] [Hfr Hf]]. destruct Hf as (_ & _ & Hsc & _). rewrite Hsc.
      enough (0 <= js_round (default 1%Q sc * 100)%Q)%Z by lia.
      apply js_round_nonneg. destruct sc as [s|]; simpl; [|discriminate].
      apply Qmult_le_0_compat; [|discriminate]. exact (Hnn _ _ _ _ _ Hfr). }
    rewrite HF0, app_nil_r. etransitivity; [apply length_filter|].
    pose proof (ts_exact_fold_length lower ds []) as HL. simpl in HL. fold E in HL. lia. }
  pose proof (sorted_low_prefix S i x (sort_results_score_strongly localeCompare _) Hi Hsx) as Hp.
  apply list_elem_of_In, in_map_iff. exists x. split; [done|].
  apply list_elem_of_In, list_elem_of_lookup. exists i. rewrite lookup_take_lt; [done|lia].
Qed.

End SearchTsProps.

Definition docs_ex : list Doc := [doc_ex1; doc_ex2; doc_ex3].

Lemma search_ts_entries_witness :
  let e := mkResult "Mars Soil.txt" "Mars Soil" "red dust" 10 1 "" "" in
  In e (search_ts lc_ex fuse_ex docs_ex "dust" 20)
  /\ (let q := trim "dust" in
      let lower := toLowerCase q in
      (exists d, In d docs_ex /\ ts_title_entry lower d e)
      \/ (exists d, In d docs_ex /\ ts_content_entry lower d e)
      \/ ((exists fr, In fr (fuse_ex docs_ex q (20 * 2)) /\ ts_fuzzy_entry fr e)
          /\ (forall d, In d docs_ex -> d_id d = r_id e ->
                includes (toLowerCase (d_title d)) lower = false
                /\ indexOf (toLowerCase (d_content d)) lower = None))).
Proof.
  intros e.
  assert (H : In e (search_ts lc_ex fuse_ex docs_ex "dust" 20)).
  { vm_compute. repeat first [left; reflexivity | right]. }
  split; [exact H|].
  exact (search_ts_entries lc_ex fuse_ex docs_ex "dust" 20 e H).
Defined.

Lemma search_ts_exact_kept_witness :
  ((forall l q' n d' s, In (d', Some s) (fuse_ex l q' n) -> (0 <= s)%Q)
   /\ (length docs_ex <= 3)%nat /\ trim "regolith" <> "" /\ In doc_ex3 docs_ex
   /\ (includes (toLowerCase (d_title doc_ex3)) (toLowerCase (trim "regolith")) = true
       \/ includes (toLowerCase (d_content doc_ex3)) (toLowerCase (trim "regolith")) = true))
  /\ d_id doc_ex3 ∈ map r_id (search_ts lc_ex fuse_ex docs_ex "regolith" 3).
Proof.
  assert (H2 : (length docs_ex <= 3)%nat) by (simpl; lia).
  assert (H3 : trim "regolith" <> "") by (vm_compute; discriminate).
  assert (H4 : In doc_ex3 docs_ex) by (simpl; auto).
  assert (H5 : includes (toLowerCase (d_title doc_ex3)) (toLowerCase (trim "regolith")) = true
       \/ includes (toLowerCase (d_content doc_ex3)) (toLowerCase (trim "regolith")) = true)
    by (right; vm_compute; reflexivity).
  split; [split; [exact fuse_ex_nonneg|split; [exact H2|split; [exact H3|split; [exact H4|exact H5]]]]|].
  exact (search_ts_exact_kept lc_ex fuse_ex docs_ex "regolith" 3 doc_ex3 fuse_ex_nonneg H2 H3 H4 H5).
Defined.

(* ------------------------------------------------------------------ *)
(** ** The worker pool of [buildIndex] (search.ts) *)

(** A [worker()] call: suspended at [await fetchText(filename)], or
    returned after finding the queue empty. *)
Inductive wstate := WBusy (filename : string) | WDone.

Record Pool := mkPool {
  p_queue : list string;            (* q = manifest.slice() *)
  p_workers : list wstate;
  p_docs : list Doc;                (* docs *)
  p_done : nat;                     (* done *)
  p_reports : list (nat * nat)      (* the onProgress(done, total) calls *)
}.

(** The loop test and [q.shift()] of a worker, run without a suspension
    point in between. *)
Definition worker_next (q : list string) : wstate * list string :=
  match q with
  | [] => (WDone, [])
  | f :: q' => (WBusy f, q')
  end.

(** [Array.from({length: Math.min(concurrency, manifest.length)}, () => worker())]:
    each call runs to its first [await], so worker [i] starts on
    [manifest[i]]. *)
Fixpoint start_workers (n : nat) (q : list string) : list wstate * list string :=
  match n with
  | O => ([], q)
  | S n' =>
      let '(w, q1) := worker_next q in
      let '(ws, q2) := start_workers n' q1 in
      (w :: ws, q2)
  end.

Definition pool_init (manifest : list string) (concurrency : nat) : Pool :=
  let '(ws, q) := start_workers (Nat.min concurrency (length manifest)) manifest in
  mkPool q ws [] 0 [].

(** The [await fetchText(filename)] of worker [i] settles with the
    responses [fetch] gives: the document is pushed, [done] counted and
    reported, and the worker goes on to its next loop test and shift. *)
Definition pool_finish (baseUrl : string) (total : nat) (i : nat)
    (fetch : string -> fetch_result) (s : Pool) : option Pool :=
  match p_workers s !! i with
  | Some (WBusy f) =>
      let content := snd (fetchText fetch baseUrl f) in
      let d := mkDoc f (strip_txt f) content "" in
      let '(w, q') := worker_next (p_queue s) in
      Some (mkPool q' (<[i := w]> (p_workers s)) (p_docs s ++ [d])%list (S (p_done s))
              (p_reports s ++ [(S (p_done s), total)])%list)
  | _ => None
  end.

Fixpoint pool_run (baseUrl : string) (total : nat) (es : list (nat * (string -> fetch_result)))
    (s : Pool) : option Pool :=
  match es with
  | [] => Some s
  | (i, fetch) :: es' =>
      match pool_finish baseUrl total i fetch s with
      | Some s' => pool_run baseUrl total es' s'
      | None => None
      end
  end.

(** [await Promise.all(workers)] has resolved. *)
Definition pool_finished (s : Pool) : Prop := Forall (fun w => w = WDone) (p_workers s).

Definition busy_of (w : wstate) : list string :=
  match w with WBusy f => [f] | WDone => [] end.

Definition busy (ws : list wstate) : list string := flat_map busy_of ws.

Lemma start_workers_spec n q :
  start_workers n q = ((map WBusy (take n q) ++ replicate (n - length q) WDone)%list, drop n q).
Proof.
  revert q. induction n as [|n IH]; intros q; [done|].
  destruct q as [|f q]; simpl.
  - rewrite IH, take_nil, drop_nil, Nat.sub_0_r. reflexivity.
  - by rewrite IH.
Qed.

Lemma busy_app ws1 ws2 : busy (ws1 ++ ws2) = (busy ws1 ++ busy ws2)%list.
Proof. apply flat_map_app. Qed.

Lemma busy_map_WBusy l : busy (map WBusy l) = l.
Proof. induction l as [|f l IH]; simpl; [done|]. by rewrite IH. Qed.

Lemma busy_replicate_WDone n : busy (replicate n WDone) = [].
Proof. induction n; simpl; auto. Qed.

Lemma busy_insert ws i w :
  (i < length ws)%nat -> busy (<[i := w]> ws) ≡ₚ busy_of w ++ busy (<[i := WDone]> ws).
Proof.
  revert i. induction ws as [|x ws IH]; intros i Hi; simpl in Hi; [lia|].
  destruct i as [|i]; simpl.
  - done.
  - rewrite (IH i) by lia. solve_Permutation.
Qed.

Lemma busy_lookup ws i f :
  ws !! i = Some (WBusy f) -> busy ws ≡ₚ f :: busy (<[i := WDone]> ws).
Proof.
  intros H. rewrite <- (list_insert_id ws i (WBusy f)) at 1 by done.
  rewrite busy_insert; [done|]. by apply lookup_lt_Some in H.
Qed.

Lemma busy_nil_finished ws : busy ws = [] -> Forall (fun w => w = WDone) ws.
Proof.
  induction ws as [|[f|] ws IH]; simpl; intros H; [constructor|discriminate|].
  constructor; auto.
Qed.

Lemma finished_busy_nil ws : Forall (fun w => w = WDone) ws -> busy ws = [].
Proof. induction 1 as [|w ws -> _ IH]; simpl; auto. Qed.

(** The invariant of the pool, for [manifest] and [k] workers. *)
Definition pool_inv (manifest : list string) (k : nat) (s : Pool) : Prop :=
  (map d_id (p_docs s) ++ busy (p_workers s) ++ p_queue s)%list ≡ₚ manifest
  /\ p_done s = length (p_docs s)
  /\ p_reports s = map (fun j => (j, length manifest)) (seq 1 (p_done s))
  /\ Forall (fun d => d_title d = strip_txt (d_id d) /\ d_url d = "") (p_docs s)
  /\ length (p_workers s) = k
  /\ (p_queue s <> [] -> Forall (fun w => w <> WDone) (p_workers s)).

Lemma pool_inv_init manifest c :
  pool_inv manifest (Nat.min c (length manifest)) (pool_init manifest c).
Proof.
  unfold pool_init. rewrite start_workers_spec.
  set (k := Nat.min c (length manifest)).
  assert (Hk : (k <= length manifest)%nat) by (unfold k; lia).
  replace (k - length manifest)%nat with 0%nat by lia. simpl. rewrite app_nil_r.
  unfold pool_inv. cbn [p_queue p_workers p_docs p_done p_reports].
  split; [|split; [done|split; [done|split; [constructor|split]]]].
  - rewrite busy_map_WBusy. by rewrite take_drop.
  - rewrite length_map, length_take. lia.
  - intros _. apply List.Forall_forall. intros w Hw. apply in_map_iff in Hw as [f [<- _]].
    discriminate.
Qed.

Lemma pool_inv_finish manifest k baseUrl i fetch s s' :
  pool_inv manifest k s ->
  pool_finish baseUrl (length manifest) i fetch s = Some s' ->
  pool_inv manifest k s'.
Proof.
  intros (Hperm & Hdone & Hrep & Hdocs & Hlen & Hq). unfold pool_finish.
  destruct (p_workers s !! i) as [[f|]|] eqn:Hi; try discriminate.
  pose proof (busy_lookup _ _ _ Hi) as Hb.
  assert (Hil : (i < length (p_workers s))%nat) by (by apply lookup_lt_Some in Hi).
  destruct (p_queue s) as [|g q'] eqn:Eq; simpl; intros [= <-];
    unfold pool_inv; cbn [p_queue p_workers p_docs p_done p_reports].
  - split; [|split; [rewrite length_app; simpl; lia|split; [|split; [|split]]]].
    + rewrite map_app, app_nil_r. rewrite app_nil_r, Hb in Hperm.
      rewrite <- Hperm. simpl. solve_Permutation.
    + rewrite Hrep, seq_S, map_app. do 2 f_equal.
    + apply Forall_app. split; [done|]. repeat constructor.
    + by rewrite length_insert.
    + done.
  - split; [|split; [rewrite length_app; simpl; lia|split; [|split; [|split]]]].
    + rewrite map_app, busy_insert by done. simpl. rewrite Hb in Hperm.
      rewrite <- Hperm. solve_Permutation.
    + rewrite Hrep, seq_S, map_app. do 2 f_equal.
    + apply Forall_app. split; [done|]. repeat constructor.
    + by rewrite length_insert.
    + intros _. apply Forall_insert; [|discriminate]. apply Hq. discriminate.
Qed.

Lemma pool_inv_run manifest k baseUrl es s s' :
  pool_inv manifest k s ->
  pool_run baseUrl (length manifest) es s = Some s' -> pool_inv manifest k s'.
Proof.
  revert s. induction es as [|[i fetch] es IH]; intros s Hs; simpl.
  - by intros [= <-].
  - destruct (pool_finish _ _ _ _ _) as [s1|] eqn:E; [|discriminate].
    apply IH. eapply pool_inv_finish; eauto.
Qed.

(** The states the pool reaches from its start. *)
Definition pool_reachable (manifest : list string) (concurrency : nat) (baseUrl : string)
    (s : Pool) : Prop :=
  exists es, pool_run baseUrl (length manifest) es (pool_init manifest concurrency) = Some s.

(** X12: in every state of the pool, [done] is the number of documents
    pushed, the progress calls so far were [onProgress(1, total)], ...,
    [onProgress(done, total)] in order, and each document's title is its
    filename without the [.txt] suffix. Once [Promise.all(workers)] has
    resolved, with a concurrency of at least 1 (or an empty manifest),
    the documents are those of the manifest, each as often as it is
    listed, and [done] equals [manifest.length]; with a concurrency of 0
    no worker starts and no document is pushed. *)
Theorem pool_complete (manifest : list string) (concurrency : nat) (baseUrl : string) (s : Pool) :
  pool_reachable manifest concurrency baseUrl s ->
  p_done s = length (p_docs s)
  /\ p_reports s = map (fun j => (j, length manifest)) (seq 1 (p_done s))
  /\ Forall (fun d => d_title d = strip_txt (d_id d)) (p_docs s)
  /\ (pool_finished s -> (1 <= concurrency)%nat \/ manifest = [] ->
        map d_id (p_docs s) ≡ₚ manifest /\ p_done s = length manifest)
  /\ (concurrency = 0%nat -> pool_finished s /\ p_docs s = []).
Proof.
  intros [es Hrun].
  pose proof (pool_inv_run _ _ _ _ _ _ (pool_inv_init manifest concurrency) Hrun)
    as (Hperm & Hdone & Hrep & Hdocs & Hlen & Hq).
  split; [done|]. split; [done|].
  split; [eapply List.Forall_impl; [|exact Hdocs]; intros d [? _]; done|].
  split.
  - intros Hfin Hc.
    assert (Hq0 : p_queue s = []).
    { destruct (p_queue s) as [|f q'] eqn:Eq; [done|exfalso].
      assert (Hne : manifest <> []).
      { intros ->. symmetry in Hperm. apply Permutation_nil in Hperm. apply app_eq_nil in Hperm as [_ H].
        apply app_eq_nil in H as [_ H]. congruence. }
      destruct Hc as [Hc|Hc]; [|done].
      destruct (p_workers s) as [|w ws] eqn:Ew.
      - simpl in Hlen. destruct manifest; [done|]. simpl in Hlen. lia.
      - specialize (Hq ltac:(discriminate)). unfold pool_finished in Hfin. rewrite Ew in Hfin.
        apply Forall_cons in Hq as [Hw _]. apply Forall_cons in Hfin as [Hw' _]. congruence. }
    rewrite Hq0, (finished_busy_nil _ Hfin) in Hperm. simpl in Hperm.
    rewrite !app_nil_r in Hperm. split; [done|].
    rewrite Hdone, <- (Permutation_length Hperm). by rewrite length_map.
  - intros ->. unfold pool_init in Hrun. rewrite start_workers_spec in Hrun. simpl in Hrun.
    destruct es as [|[i fetch] es]; simpl in Hrun.
    + injection Hrun as <-. simpl. split; [constructor|done].
    + unfold pool_finish in Hrun. simpl in Hrun. by rewrite ?lookup_nil in Hrun.
Qed.

Lemma pool_finish_some baseUrl total i fetch s f :
  p_workers s !! i = Some (WBusy f) ->
  exists s', pool_finish baseUrl total i fetch s = Some s'
    /\ (length (p_queue s') + length (busy (p_workers s')) + 1
        = length (p_queue s) + length (busy (p_workers s)))%nat.
Proof.
  intros Hi. unfold pool_finish. rewrite Hi.
  pose proof (busy_lookup _ _ _ Hi) as Hb.
  assert (Hil : (i < length (p_workers s))%nat) by (by apply lookup_lt_Some in Hi).
  apply Permutation_length in Hb. simpl in Hb.
  destruct (p_queue s) as [|g q'] eqn:Eq; simpl; eexists; (split; [reflexivity|]); simpl.
  - lia.
  - rewrite (Permutation_length (busy_insert _ _ _ Hil)). simpl. lia.
Qed.

Lemma busy_lookup_some ws f : In f (busy ws) -> exists i, ws !! i = Some (WBusy f).
Proof.
  induction ws as [|w ws IH]; simpl; [intros []|].
  intros H. apply in_app_iff in H as [H|H].
  - destruct w as [g|]; simpl in H; [|done]. destruct H as [<-|[]]. by exists 0%nat.
  - destruct (IH H) as [i Hi]. by exists (S i).
Qed.

(** X13: the pool never gets stuck: from any state, letting the pending
    fetches settle, whatever the responses, resolves
    [Promise.all(workers)]. *)
Theorem pool_terminates (baseUrl : string) (total : nat) (fetch : string -> fetch_result) (s : Pool) :
  exists es s',
    pool_run baseUrl total es s = Some s' /\ pool_finished s'
    /\ Forall (fun e => snd e = fetch) es.
Proof.
  remember (length (p_queue s) + length (busy (p_workers s)))%nat as n eqn:En.
  revert s En. induction n as [|n IH]; intros s En.
  - exists [], s. split; [done|]. split; [|constructor].
    apply busy_nil_finished. destruct (busy (p_workers s)); [done|simpl in En; lia].
  - destruct (busy (p_workers s)) as [|f b] eqn:Eb.
    + exists [], s. split; [done|]. split; [by apply busy_nil_finished|constructor].
    + assert (Hf : In f (busy (p_workers s))) by (rewrite Eb; left; done).
      destruct (busy_lookup_some _ _ Hf) as [i Hi].
      destruct (pool_finish_some baseUrl total i fetch s f Hi) as [s1 [E1 Hm]].
      rewrite Eb in Hm.
      destruct (IH s1 ltac:(simpl in *; lia)) as (es & s' & Hr & Hfin & Hall).
      exists ((i, fetch) :: es), s'. simpl. rewrite E1. split; [done|]. split; [done|].
      by constructor.
Qed.

Definition manifest_ex : list string := ["a.txt"; "b.TXT"; "a.txt"].
Definition pool_events_ex : list (nat * (string -> fetch_result)) :=
  [(0%nat, fetch_ok_x); (1%nat, fetch_fail); (0%nat, fetch_ok_x)].
Definition pool_state_ex : Pool :=
  default (pool_init manifest_ex 2)
    (pool_run "https://x/" (length manifest_ex) pool_events_ex (pool_init manifest_ex 2)).

Lemma pool_complete_witness :
  pool_reachable manifest_ex 2 "https://x/" pool_state_ex
  /\ (p_done pool_state_ex = length (p_docs pool_state_ex)
  /\ p_reports pool_state_ex = map (fun j => (j, length manifest_ex)) (seq 1 (p_done pool_state_ex))
  /\ Forall (fun d => d_title d = strip_txt (d_id d)) (p_docs pool_state_ex)
  /\ (pool_finished pool_state_ex -> (1 <= 2)%nat \/ manifest_ex = [] ->
        map d_id (p_docs pool_state_ex) ≡ₚ manifest_ex
        /\ p_done pool_state_ex = length manifest_ex)
  /\ (2%nat = 0%nat -> pool_finished pool_state_ex /\ p_docs pool_state_ex = [])).
Proof.
  assert (H : pool_reachable manifest_ex 2 "https://x/" pool_state_ex).
  { exists pool_events_ex. vm_compute. reflexivity. }
  split; [exact H|]. exact (pool_complete manifest_ex 2 "https://x/" pool_state_ex H).
Defined.

(* ------------------------------------------------------------------ *)
(** ** Saved results (context/ResultsContext.tsx) *)

(** The updater [setSaved((prev) => ...)] of [toggleSaved]. *)
Definition toggleSaved (prev : list SearchResult) (item : SearchResult) : list SearchResult :=
  match List.find (fun p => String.eqb (r_id p) (r_id item)) prev with
  | Some _ => filter (fun p => negb (String.eqb (r_id p) (r_id item))) prev
  | None => item :: prev
  end.

(** The updater of the server merge: a [Map] filled with the server's
    entries ([set], a later entry with the same id replacing the value in
    place), then with the local entries whose id is not yet present;
    [Array.from(map.values())]. *)
Definition merge_saved (serverSaved local : list SearchResult) : list SearchResult :=
  let m := foldl (fun m s => map_set m (r_id s) s) [] serverSaved in
  let m := foldl (fun m s => if map_has m (r_id s) then m else map_set m (r_id s) s) m local in
  map snd m.

Lemma find_id_None (prev : list SearchResult) k :
  List.find (fun p => String.eqb (r_id p) k) prev = None -> k ∉ map r_id prev.
Proof.
  intros H Hk. apply list_elem_of_In, in_map_iff in Hk as [p [Hp Hin]].
  pose proof (List.find_none _ _ H p Hin) as E. simpl in E.
  rewrite Hp, String.eqb_refl in E. discriminate.
Qed.

Lemma find_id_Some (prev : list SearchResult) k p :
  List.find (fun p => String.eqb (r_id p) k) prev = Some p -> k ∈ map r_id prev.
Proof.
  intros H. apply List.find_some in H as [Hin E]. apply String.eqb_eq in E.
  apply list_elem_of_In, in_map_iff. eauto.
Qed.

Lemma In_filter_id (prev : list SearchResult) k x :
  In x (filter (fun p => negb (String.eqb (r_id p) k)) prev) <-> In x prev /\ r_id x <> k.
Proof.
  rewrite <- !list_elem_of_In, list_elem_of_filter.
  destruct (String.eqb_spec (r_id x) k); simpl; intuition.
Qed.

Lemma NoDup_map_filter {A B} (f : A -> B) (P : A -> bool) (l : list A) :
  NoDup (map f l) -> NoDup (map f (filter P l)).
Proof.
  induction l as [|x l IH]; simpl; [done|]. intros Hnd.
  apply NoDup_cons in Hnd as [Hx Hnd]. rewrite filter_cons.
  destruct (decide (P x)); simpl; [|auto].
  apply NoDup_cons. split; [|auto].
  intros Hin. apply Hx. apply list_elem_of_In, in_map_iff in Hin as [y [Hy Hin]].
  apply list_elem_of_In, in_map_iff. exists y. split; [done|].
  apply list_elem_of_In in Hin. apply list_elem_of_In. rewrite list_elem_of_filter in Hin.
  by destruct Hin.
Qed.

Lemma filter_id_all (prev : list SearchResult) k :
  k ∉ map r_id prev -> filter (fun p => negb (String.eqb (r_id p) k)) prev = prev.
Proof.
  induction prev as [|x prev IH]; simpl; [done|]. intros Hk.
  rewrite filter_cons. rewrite decide_True.
  - f_equal. apply IH. intros H. apply Hk. apply elem_of_cons. auto.
  - destruct (String.eqb_spec (r_id x) k) as [E|]; [|done].
    exfalso. apply Hk. apply elem_of_cons. auto.
Qed.

(** X14: [toggleSaved] removes every saved entry with the item's id when
    there is one, and otherwise puts the item first; other entries are
    untouched; ids stay distinct; and toggling an unsaved item twice gives
    back the list. *)
Theorem toggleSaved_spec (prev : list SearchResult) (item : SearchResult) :
  let next := toggleSaved prev item in
  (r_id item ∈ map r_id next <-> r_id item ∉ map r_id prev)
  /\ (r_id item ∉ map r_id prev -> next = item :: prev)
  /\ (forall x, r_id x <> r_id item -> (In x next <-> In x prev))
  /\ (NoDup (map r_id prev) -> NoDup (map r_id next))
  /\ (r_id item ∉ map r_id prev -> toggleSaved next item = prev).
Proof.
  intros next. unfold next, toggleSaved.
  destruct (List.find _ prev) as [p|] eqn:Ef.
  - pose proof (find_id_Some _ _ _ Ef) as Hin.
    split; [|split; [done|split; [|split; [apply NoDup_map_filter|done]]]].
    + split; [|done]. intros Hk. exfalso.
      apply list_elem_of_In, in_map_iff in Hk as [y [Hy Hy']].
      apply In_filter_id in Hy' as [_ Hne]. congruence.
    + intros x Hx. rewrite In_filter_id. tauto.
  - pose proof (find_id_None _ _ Ef) as Hnin.
    split; [split; [done|intros _; simpl; apply elem_of_cons; auto]|].
    split; [done|]. split.
    { intros x Hx. simpl. split; [intros [<-|H]; [by destruct Hx|done]|auto]. }
    split.
    + intros Hnd. simpl. by apply NoDup_cons.
    + intros _. simpl. rewrite String.eqb_refl.
      rewrite filter_cons. rewrite decide_False by (rewrite String.eqb_refl; simpl; tauto).
      by apply filter_id_all.
Qed.

Definition merge_server_step (m : list (string * SearchResult)) (s : SearchResult)
  : list (string * SearchResult) := map_set m (r_id s) s.

Definition merge_local_step (m : list (string * SearchResult)) (s : SearchResult)
  : list (string * SearchResult) := if map_has m (r_id s) then m else map_set m (r_id s) s.

Lemma merge_saved_folds serverSaved local :
  merge_saved serverSaved local
  = map snd (foldl merge_local_step (foldl merge_server_step [] serverSaved) local).
Proof. reflexivity. Qed.

(** The entries of the map are stored under their own ids. *)
Definition keyed (m : list (string * SearchResult)) : Prop :=
  forall k v, In (k, v) m -> k = r_id v.

Lemma keyed_server_fold l m : keyed m -> keyed (foldl merge_server_step m l).
Proof.
  revert m. induction l as [|s l IH]; intros m Hm; simpl; [done|]. apply IH.
  intros k v Hin. apply In_map_set in Hin as [[= -> ->]|Hin]; [done|]. eauto.
Qed.

Lemma keyed_local_fold l m : keyed m -> keyed (foldl merge_local_step m l).
Proof.
  revert m. induction l as [|s l IH]; intros m Hm; simpl; [done|]. apply IH.
  unfold merge_local_step. destruct (map_has m (r_id s)); [done|].
  intros k v Hin. apply In_map_set in Hin as [[= -> ->]|Hin]; [done|]. eauto.
Qed.

Lemma keys_server_fold l m k :
  k ∈ map fst (foldl merge_server_step m l) <-> k ∈ map fst m \/ k ∈ map r_id l.
Proof.
  revert m. induction l as [|s l IH]; intros m; simpl.
  - split; [auto|]. intros [H|H]; [done|by apply not_elem_of_nil in H].
  - rewrite IH. unfold merge_server_step. rewrite keys_map_set_elem, elem_of_cons. tauto.
Qed.

Lemma keys_local_step m s k :
  k ∈ map fst (merge_local_step m s) <-> k ∈ map fst m \/ k = r_id s.
Proof.
  unfold merge_local_step. destruct (map_has m (r_id s)) eqn:E.
  - apply map_has_true in E. split; [auto|]. intros [H| ->]; done.
  - rewrite keys_map_set_elem. tauto.
Qed.

Lemma keys_local_fold l m k :
  k ∈ map fst (foldl merge_local_step m l) <-> k ∈ map fst m \/ k ∈ map r_id l.
Proof.
  revert m. induction l as [|s l IH]; intros m; simpl.
  - split; [auto|]. intros [H|H]; [done|by apply not_elem_of_nil in H].
  - rewrite IH, keys_local_step, elem_of_cons. tauto.
Qed.

Lemma server_fold_inv l m y :
  In y (foldl merge_server_step m l) -> In y m \/ In (snd y) l.
Proof.
  intros H.
  destruct (foldl_map_inv merge_server_step (fun s y => snd y = s) l m y) as [H0|[s [Hs Hy]]];
    [|exact H|auto|].
  - intros m' s y' Hy'. unfold merge_server_step in Hy'.
    apply In_map_set in Hy' as [->|?]; auto.
  - right. by rewrite Hy.
Qed.

Lemma local_fold_inv l m y :
  In y (foldl merge_local_step m l) ->
  In y m \/ (In (snd y) l /\ fst y ∉ map fst m).
Proof.
  revert m. induction l as [|s l IH]; intros m H; simpl in *; [auto|].
  destruct (IH _ H) as [H0|[Hin Hk]].
  - unfold merge_local_step in H0. destruct (map_has m (r_id s)) eqn:E; [auto|].
    apply In_map_set in H0 as [->|H0]; [|auto]. right. simpl.
    split; [auto|]. by apply map_has_false.
  - right. split; [auto|]. intros Hk'. apply Hk, keys_local_step. auto.
Qed.

Lemma nodup_local_fold l m : NoDup (map fst m) -> NoDup (map fst (foldl merge_local_step m l)).
Proof.
  apply foldl_map_nodup. intros m' s Hnd. unfold merge_local_step.
  destruct (map_has m' (r_id s)); [done|]. by apply NoDup_keys_map_set.
Qed.

Lemma nodup_server_fold l m : NoDup (map fst m) -> NoDup (map fst (foldl merge_server_step m l)).
Proof. apply foldl_map_nodup. intros m' s Hnd. by apply NoDup_keys_map_set. Qed.

(** X15: merging the server's saved list with the local one gives
    distinct ids, exactly the ids of either list, and an entry from the
    server for every id the server has (the server wins over the local
    list); every other entry is a local one. *)
Theorem merge_saved_spec (serverSaved local : list SearchResult) :
  let merged := merge_saved serverSaved local in
  NoDup (map r_id merged)
  /\ (forall k, k ∈ map r_id merged <-> k ∈ map r_id serverSaved \/ k ∈ map r_id local)
  /\ (forall e, In e merged -> r_id e ∈ map r_id serverSaved -> In e serverSaved)
  /\ (forall e, In e merged -> In e serverSaved \/ In e local).
Proof.
  intros merged. unfold merged. rewrite merge_saved_folds.
  set (S := foldl merge_server_step [] serverSaved).
  set (M := foldl merge_local_step S local).
  assert (HkM : keyed M) by (apply keyed_local_fold, keyed_server_fold; intros k v []).
  assert (Hids : map r_id (map snd M) = map fst M).
  { rewrite map_map. apply map_ext_in. intros [k v] Hin. symmetry. exact (HkM k v Hin). }
  rewrite Hids.
  split; [apply nodup_local_fold, nodup_server_fold; constructor|].
  split.
  { intros k. unfold M, S. rewrite keys_local_fold, keys_server_fold. simpl.
    split; [intros [[H|H]|H]; [by apply not_elem_of_nil in H|auto|auto]|tauto]. }
  assert (Hin : forall e, In e (map snd M) ->
            In (r_id e, e) S \/ (In e local /\ r_id e ∉ map fst S)).
  { intros e He. apply in_map_iff in He as [[k v] [Hv Hkv]]. simpl in Hv. subst v.
    rewrite <- (HkM k e Hkv). apply (local_fold_inv local S (k, e) Hkv). }
  split.
  - intros e He Hk. destruct (Hin e He) as [HS|[_ Hn]].
    + destruct (server_fold_inv serverSaved [] _ HS) as [[]|H]. exact H.
    + exfalso. apply Hn. unfold S. apply keys_server_fold. auto.
  - intros e He. destruct (Hin e He) as [HS|[Hl _]]; [|auto].
    destruct (server_fold_inv serverSaved [] _ HS) as [[]|H]. auto.
Qed.

(* ------------------------------------------------------------------ *)
(** ** Pagination (pages/results.tsx, App.tsx) *)

(** [Math.max(1, Math.ceil(results.length / pageSize))] for a page size
    of at least 1 (the page sizes offered are 5, 10, 20 and 50, the
    default 10). *)
Definition totalPages (len pageSize : nat) : nat :=
  Nat.max 1 ((len + pageSize - 1) / pageSize).

(** [results.slice((page - 1) * pageSize, page * pageSize)] for a page of
    at least 1. *)
Definition pageResults {A} (results : list A) (page pageSize : nat) : list A :=
  take (page * pageSize - (page - 1) * pageSize) (drop ((page - 1) * pageSize) results).

Lemma pageResults_take {A} (results : list A) page ps :
  (1 <= page)%nat -> pageResults results page ps = take ps (drop ((page - 1) * ps) results).
Proof.
  intros Hp. unfold pageResults. destruct page as [|p]; [lia|].
  replace (S p * ps - (S p - 1) * ps)%nat with ps by (simpl; rewrite Nat.sub_0_r; lia). done.
Qed.

Lemma pages_concat {A} (l : list A) ps a m :
  concat (map (fun p => pageResults l p ps) (seq (S a) m)) = take (m * ps) (drop (a * ps) l).
Proof.
  revert a. induction m as [|m IH]; intros a; simpl; [done|].
  rewrite pageResults_take by lia. replace (S a - 1)%nat with a by lia.
  rewrite IH, <- take_take_drop, drop_drop.
  replace (S a * ps)%nat with (a * ps + ps)%nat by (simpl; lia). done.
Qed.

Lemma totalPages_covers len ps : (1 <= ps)%nat -> (len <= totalPages len ps * ps)%nat.
Proof.
  intros Hps. unfold totalPages.
  pose proof (Nat.div_mod (len + ps - 1) ps ltac:(lia)) as Hd.
  pose proof (Nat.mod_upper_bound (len + ps - 1) ps ltac:(lia)) as Hm.
  set (q := ((len + ps - 1) / ps)%nat) in *. set (r := ((len + ps - 1) mod ps)%nat) in *.
  assert (len <= q * ps)%nat by nia. nia.
Qed.

Lemma totalPages_tight len ps :
  (1 <= ps)%nat -> (1 <= len)%nat -> ((totalPages len ps - 1) * ps < len)%nat.
Proof.
  intros Hps Hlen. unfold totalPages.
  pose proof (Nat.div_mod (len + ps - 1) ps ltac:(lia)) as Hd.
  pose proof (Nat.mod_upper_bound (len + ps - 1) ps ltac:(lia)) as Hm.
  set (q := ((len + ps - 1) / ps)%nat) in *. set (r := ((len + ps - 1) mod ps)%nat) in *.
  assert (1 <= q)%nat by nia.
  replace (Nat.max 1 q) with q by lia. nia.
Qed.

(** X16: with a page size of at least 1, the pages [1 .. totalPages]
    shown one after the other are exactly the results, in order; each
    holds at most [pageSize] results, none of them is empty unless there
    are no results, and every page after the last is empty. *)
Theorem pagination_partition {A} (results : list A) (pageSize : nat) :
  (1 <= pageSize)%nat ->
  let tp := totalPages (length results) pageSize in
  concat (map (fun p => pageResults results p pageSize) (seq 1 tp)) = results
  /\ (forall p, (1 <= p <= tp)%nat ->
        (length (pageResults results p pageSize) <= pageSize)%nat
        /\ (results <> [] -> pageResults results p pageSize <> []))
  /\ (forall p, (tp < p)%nat -> pageResults results p pageSize = []).
Proof.
  intros Hps tp. pose proof (totalPages_covers (length results) pageSize Hps) as Hc. fold tp in Hc.
  split; [|split].
  - rewrite (pages_concat results pageSize 0 tp). simpl. apply take_ge. lia.
  - intros p Hp. rewrite pageResults_take by lia. split; [rewrite length_take; lia|].
    intros Hne. destruct results as [|x l]; [done|].
    pose proof (totalPages_tight (length (x :: l)) pageSize Hps ltac:(simpl; lia)) as Ht.
    fold tp in Ht.
    assert (Hlt : ((p - 1) * pageSize < length (x :: l))%nat).
    { enough ((p - 1) * pageSize <= (tp - 1) * pageSize)%nat by lia.
      apply Nat.mul_le_mono_r. lia. }
    intros E. apply (f_equal length) in E. rewrite length_take, length_drop in E. simpl in E, Hlt. lia.
  - intros p Hp. rewrite pageResults_take by lia.
    rewrite drop_ge; [by rewrite take_nil|].
    enough (tp * pageSize <= (p - 1) * pageSize)%nat by lia.
    apply Nat.mul_le_mono_r. lia.
Qed.

Lemma pagination_partition_witness :
  (1 <= 2)%nat /\
  (let tp := totalPages (length [1; 2; 3; 4; 5]%nat) 2 in
   concat (map (fun p => pageResults [1; 2; 3; 4; 5]%nat p 2) (seq 1 tp)) = [1; 2; 3; 4; 5]%nat
   /\ (forall p, (1 <= p <= tp)%nat ->
         (length (pageResults [1; 2; 3; 4; 5]%nat p 2) <= 2)%nat
         /\ ([1; 2; 3; 4; 5]%nat <> [] -> pageResults [1; 2; 3; 4; 5]%nat p 2 <> []))
   /\ (forall p, (tp < p)%nat -> pageResults [1; 2; 3; 4; 5]%nat p 2 = [])).
Proof.
  split; [lia|]. apply (pagination_partition [1; 2; 3; 4; 5]%nat 2). lia.
Defined.

(* ------------------------------------------------------------------ *)
(** ** [escapeRegex] (App.tsx, pages/results.tsx) *)

(** [str.replace(/[.*+?^${}()|[\]\\]/g, "\\$&")]: a backslash before each
    character of the class, which is [regex_special]. *)
Fixpoint escapeRegex (s : string) : string :=
  match s with
  | EmptyString => EmptyString
  | String c s' =>
      if regex_special c then String "\" (String c (escapeRegex s'))
      else String c (escapeRegex s')
  end.

(** How [new RegExp(p)] reads a pattern made only of literal atoms: an
    ECMAScript PatternCharacter (any character but a SyntaxCharacter
    [^$\.*+?()[]{}|], the characters of [regex_special]) stands for
    itself, and an IdentityEscape [\c] of a SyntaxCharacter [c] stands for
    [c]. The result is the string such a pattern matches; [None] is a
    pattern with an operator, a class escape or a trailing backslash. *)
Fixpoint regex_literal (p : string) : option string :=
  match p with
  | EmptyString => Some EmptyString
  | String c p' =>
      if Ascii.eqb c "\" then
        match p' with
        | String d p'' =>
            if regex_special d then option_map (String d) (regex_literal p'') else None
        | EmptyString => None
        end
      else if regex_special c then None
      else option_map (String c) (regex_literal p')
  end.

Lemma regex_special_backslash : regex_special "\" = true.
Proof. reflexivity. Qed.

Lemma regex_literal_escapeRegex s : regex_literal (escapeRegex s) = Some s.
Proof.
  induction s as [|c s IH]; [done|]. simpl.
  destruct (regex_special c) eqn:Hc; simpl.
  - rewrite Hc, IH. done.
  - destruct (Ascii.eqb c "\") eqn:Hb.
    + apply Ascii.eqb_eq in Hb. subst c. by rewrite regex_special_backslash in Hc.
    + rewrite Hc, IH. done.
Qed.

Lemma regex_literal_unique p s : regex_literal p = Some s -> p = escapeRegex s.
Proof.
  revert s. induction p as [p IH] using (well_founded_induction
    (Wf_nat.well_founded_ltof _ String.length)).
  unfold Wf_nat.ltof in IH.
  intros s. destruct p as [|c p']; simpl; [by intros [= <-]|].
  destruct (Ascii.eqb c "\") eqn:Hb.
  - apply Ascii.eqb_eq in Hb. subst c. destruct p' as [|d p'']; [done|].
    destruct (regex_special d) eqn:Hd; [|done].
    destruct (regex_literal p'') as [s''|] eqn:E; [|done]. simpl. intros [= <-].
    cbn [escapeRegex]. rewrite Hd.
    rewrite <- (IH p'' ltac:(simpl; lia) s'' E). done.
  - destruct (regex_special c) eqn:Hc; [done|].
    destruct (regex_literal p') as [s'|] eqn:E; [|done]. simpl. intros [= <-].
    simpl. rewrite Hc. rewrite <- (IH p' ltac:(simpl; lia) s' E). done.
Qed.

(** X17: the pattern [escapeRegex] builds is a literal pattern that
    [new RegExp] reads as the input text itself, and it is the only
    literal pattern for that text. *)
Theorem escapeRegex_literal (s : string) :
  regex_literal (escapeRegex s) = Some s
  /\ (forall p, regex_literal p = Some s -> p = escapeRegex s).
Proof.
  split; [apply regex_literal_escapeRegex|]. intros p. apply regex_literal_unique.
Qed.

(* ------------------------------------------------------------------ *)
(** ** Page navigation of the results page (pages/results.tsx) *)

(** The state [ResultsPage] pages with: [results], [page] and
    [pageSize]. The query strings only feed the highlighting. *)
Record PageState {A} := mkPageState {
  ps_results : list A;
  ps_page : nat;
  ps_pageSize : nat;
}.
Arguments PageState : clear implicits.
Arguments mkPageState {A}.

(** The user's actions: the four buttons, the page-size select, and a
    [performLocalSearch], which sets some result list (the initial
    results, the Fuse hits or the substring fallback). *)
Inductive page_event {A} :=
| PFirst
| PPrev
| PNext
| PLast
| PSetPageSize (n : nat)
| PSearch (rs : list A).
Arguments page_event : clear implicits.

(** One action. A disabled button ([page === 1] for First and Prev,
    [page === totalPages] for Next and Last) does nothing; the select
    only offers 5, 10, 20 and 50. The state updates of one handler
    ([setResults] with [setPage(1)], [setPageSize] with [setPage(1)]) are
    applied together. *)
Definition page_step {A} (s : PageState A) (e : page_event A) : option (PageState A) :=
  let tp := totalPages (length (ps_results s)) (ps_pageSize s) in
  match e with
  | PFirst =>
      Some (if Nat.eqb (ps_page s) 1 then s else mkPageState (ps_results s) 1 (ps_pageSize s))
  | PPrev =>
      Some (if Nat.eqb (ps_page s) 1 then s
            else mkPageState (ps_results s) (Nat.max 1 (ps_page s - 1)) (ps_pageSize s))
  | PNext =>
      Some (if Nat.eqb (ps_page s) tp then s
            else mkPageState (ps_results s) (Nat.min tp (ps_page s + 1)) (ps_pageSize s))
  | PLast =>
      Some (if Nat.eqb (ps_page s) tp then s else mkPageState (ps_results s) tp (ps_pageSize s))
  | PSetPageSize n =>
      if existsb (Nat.eqb n) [5; 10; 20; 50]%nat then Some (mkPageState (ps_results s) 1 n)
      else None
  | PSearch rs => Some (mkPageState rs 1 (ps_pageSize s))
  end.

Fixpoint page_run {A} (es : list (page_event A)) (s : PageState A) : option (PageState A) :=
  match es with
  | [] => Some s
  | e :: es' =>
      match page_step s e with
      | Some s' => page_run es' s'
      | None => None
      end
  end.

Definition page_inv {A} (s : PageState A) : Prop :=
  (1 <= ps_pageSize s)%nat
  /\ (1 <= ps_page s <= totalPages (length (ps_results s)) (ps_pageSize s))%nat.

Lemma totalPages_pos len ps : (1 <= totalPages len ps)%nat.
Proof. unfold totalPages. lia. Qed.

Lemma page_inv_step {A} (s s' : PageState A) e :
  page_inv s -> page_step s e = Some s' -> page_inv s'.
Proof.
  destruct s as [rs p ps]. unfold page_inv, page_step. cbn [ps_results ps_page ps_pageSize].
  intros [Hps Hp].
  pose proof (totalPages_pos (length rs) ps) as Ht.
  destruct e as [| | | |n|rs']; intros Hs.
  - injection Hs as <-. destruct (Nat.eqb p 1); cbn; lia.
  - injection Hs as <-. destruct (Nat.eqb p 1); cbn; lia.
  - injection Hs as <-. destruct (Nat.eqb_spec p (totalPages (length rs) ps)); cbn; lia.
  - injection Hs as <-. destruct (Nat.eqb p (totalPages (length rs) ps)); cbn; lia.
  - destruct (existsb (Nat.eqb n) [5; 10; 20; 50]%nat) eqn:Hn; [|done].
    injection Hs as <-. cbn.
    pose proof (totalPages_pos (length rs) n).
    apply existsb_exists in Hn as (m & Hm & Hnm). apply Nat.eqb_eq in Hnm. subst m.
    repeat destruct Hm as [<-|Hm]; try lia. done.
  - injection Hs as <-. cbn. pose proof (totalPages_pos (length rs') ps). lia.
Qed.

Lemma page_inv_run {A} (es : list (page_event A)) s s' :
  page_inv s -> page_run es s = Some s' -> page_inv s'.
Proof.
  revert s. induction es as [|e es IH]; intros s Hs; simpl; [by intros [= <-]|].
  destruct (page_step s e) as [s1|] eqn:E; [|done].
  apply IH. by apply (page_inv_step s s1 e).
Qed.

Lemma page_in_range_shown {A} (rs : list A) p ps :
  (1 <= ps)%nat -> (1 <= p <= totalPages (length rs) ps)%nat ->
  (length (pageResults rs p ps) <= ps)%nat /\ (rs <> [] -> pageResults rs p ps <> []).
Proof.
  intros Hps Hp. rewrite pageResults_take by lia. split; [rewrite length_take; lia|].
  intros Hne. destruct rs as [|x l]; [done|].
  pose proof (totalPages_tight (length (x :: l)) ps Hps ltac:(simpl; lia)) as Ht.
  assert (Hlt : ((p - 1) * ps < length (x :: l))%nat).
  { enough ((p - 1) * ps <= (totalPages (length (x :: l)) ps - 1) * ps)%nat by lia.
    apply Nat.mul_le_mono_r. lia. }
  intros E. apply (f_equal length) in E. rewrite length_take, length_drop in E.
  simpl in E, Hlt. lia.
Qed.

(** X18: starting on page 1 with a page size of at least 1, whatever the
    user clicks, selects or searches, the page stays between 1 and
    [totalPages]; so the page shown holds at most [pageSize] results and
    is never empty while there are results (the message [No results on
    this page.] only shows for an empty result list). *)
Theorem results_page_in_range {A} (rs0 : list A) (pageSize0 : nat)
    (es : list (page_event A)) (s : PageState A) :
  (1 <= pageSize0)%nat ->
  page_run es (mkPageState rs0 1 pageSize0) = Some s ->
  (1 <= ps_page s <= totalPages (length (ps_results s)) (ps_pageSize s))%nat
  /\ (length (pageResults (ps_results s) (ps_page s) (ps_pageSize s)) <= ps_pageSize s)%nat
  /\ (ps_results s <> [] -> pageResults (ps_results s) (ps_page s) (ps_pageSize s) <> []).
Proof.
  intros Hps Hrun.
  assert (Hinv : page_inv s).
  { apply (page_inv_run es (mkPageState rs0 1 pageSize0)); [|exact Hrun].
    unfold page_inv; cbn. pose proof (totalPages_pos (length rs0) pageSize0). lia. }
  destruct Hinv as [Hps' Hp]. split; [exact Hp|].
  exact (page_in_range_shown (ps_results s) (ps_page s) (ps_pageSize s) Hps' Hp).
Qed.

Definition page_events_ex : list (page_event nat) :=
  [PSearch (seq 0 11); PLast; PNext; PSetPageSize 5; PNext; PLast; PNext; PPrev].

Lemma results_page_in_range_witness :
  (1 <= 2)%nat
  /\ page_run page_events_ex (mkPageState [] 1 2) = Some (mkPageState (seq 0 11) 2 5)
  /\ ((1 <= ps_page (mkPageState (seq 0 11) 2 5)
         <= totalPages (length (ps_results (mkPageState (seq 0 11) 2 5)))
              (ps_pageSize (mkPageState (seq 0 11) 2 5)))%nat
      /\ (length (pageResults (ps_results (mkPageState (seq 0 11) 2 5))
            (ps_page (mkPageState (seq 0 11) 2 5)) (ps_pageSize (mkPageState (seq 0 11) 2 5)))
          <= ps_pageSize (mkPageState (seq 0 11) 2 5))%nat
      /\ (ps_results (mkPageState (seq 0 11) 2 5) <> [] ->
          pageResults (ps_results (mkPageState (seq 0 11) 2 5))
            (ps_page (mkPageState (seq 0 11) 2 5)) (ps_pageSize (mkPageState (seq 0 11) 2 5)) <> [])).
Proof.
  assert (H1 : (1 <= 2)%nat) by lia.
  assert (H2 : page_run page_events_ex (mkPageState [] 1 2)
               = Some (mkPageState (seq 0 11) 2 5)) by (vm_compute; reflexivity).
  split; [exact H1|]. split; [exact H2|].
  exact (results_page_in_range [] 2 page_events_ex _ H1 H2).
Defined.
